(** * libsolresol: symbols, words and phrases of Solresol, and their codecs

    A shallow embedding of [src/libsolresol.py]: the [SolfegeSymbol]
    enumeration with its aliases, the [SolresolWord] constructors and
    serialisers, and the [Solresol] phrase with its packed integer form.
    Audio, drawing and dictionary lookup are left out.

    Python strings are lists of ASCII characters, Python integers are [Z],
    and a raised exception is the [Raise] branch of [result]. *)

From Stdlib Require Import ZArith Ascii String Bool Lia Arith List.
Import ListNotations.

Local Open Scope Z_scope.

(** ** Exceptions *)

Inductive PyError : Type :=
| KeyError     (* Enum[name] on an unknown name *)
| ValueError   (* Enum(value) on an unknown value, int() on a bad literal *)
| IndexError.  (* word[0] on an empty list *)

Inductive result (A : Type) : Type :=
| Ok (a : A)
| Raise (e : PyError).

Arguments Ok {A} a.
Arguments Raise {A} e.

Definition bind {A B : Type} (r : result A) (k : A -> result B) : result B :=
  match r with
  | Ok a => k a
  | Raise e => Raise e
  end.

Notation "x <- r ;; k" := (bind r (fun x => k))
  (at level 61, r at next level, right associativity).

(** A list comprehension whose element expression may raise: elements are
    evaluated left to right and the first exception aborts the whole list. *)
Fixpoint mapM {A B : Type} (f : A -> result B) (l : list A) : result (list B) :=
  match l with
  | [] => Ok []
  | a :: t => b <- f a ;; bs <- mapM f t ;; Ok (b :: bs)
  end.

(** ** Python built-ins used by the module *)

Definition str : Type := list ascii.

Module Py.

Definition lit (s : string) : str := list_ascii_of_string s.

Definition eqb_str (a b : str) : bool :=
  if list_eq_dec ascii_dec a b then true else false.

(** [s.startswith(p)] *)
Fixpoint startswith (p s : str) : bool :=
  match p, s with
  | [], _ => true
  | _ :: _, [] => false
  | a :: p', b :: s' => Ascii.eqb a b && startswith p' s'
  end.

(** [s.lower()], on ASCII letters *)
Definition lower_char (c : ascii) : ascii :=
  let n := nat_of_ascii c in
  if (Nat.leb 65 n && Nat.leb n 90)%bool then ascii_of_nat (n + 32) else c.

Definition lower (s : str) : str := map lower_char s.

(** [s[i:j]] for [0 <= i <= j] *)
Definition slice (s : str) (i j : nat) : str := firstn (j - i) (skipn i s).

(** [s.strip(chars)]: characters of [chars] are removed from both ends. *)
Definition mem_char (c : ascii) (chars : str) : bool :=
  existsb (Ascii.eqb c) chars.

Fixpoint lstrip (chars s : str) : str :=
  match s with
  | [] => []
  | c :: t => if mem_char c chars then lstrip chars t else s
  end.

Definition rstrip (chars s : str) : str := rev (lstrip chars (rev s)).

Definition strip (chars s : str) : str := rstrip chars (lstrip chars s).

(** [s.ljust(width, fill)]: padding goes on the right. *)
Definition ljust (width : nat) (fill : ascii) (s : str) : str :=
  s ++ repeat fill (width - length s).

(** [s.replace(old, new)] for a non-empty [old]: occurrences are found
    left to right and do not overlap. [skip] counts the characters of the
    occurrence just replaced that are still to be passed over. *)
Fixpoint replace_from (old new : str) (skip : nat) (s : str) : str :=
  match s with
  | [] => []
  | c :: t =>
      match skip with
      | S k => replace_from old new k t
      | O => if startswith old s
             then new ++ replace_from old new (length old - 1) t
             else c :: replace_from old new 0 t
      end
  end.

Definition replace (old new s : str) : str := replace_from old new 0 s.

(** [''.join(parts)] *)
Definition join (parts : list str) : str := concat parts.

(** [range(0, stop, step)] *)
Definition range (stop step : nat) : list nat :=
  map (fun k => k * step)%nat (seq 0 ((stop + step - 1) / step)).

(** [enumerate(l)] *)
Definition enumerate {A : Type} (l : list A) : list (nat * A) :=
  combine (seq 0 (length l)) l.

(** Digits of positional notation. *)
Definition digit_chars : str := Eval cbv in lit "0123456789".

Definition digit_char (d : Z) : ascii := nth (Z.to_nat d) digit_chars "0"%char.

Definition char_digit (c : ascii) : option Z :=
  let n := nat_of_ascii c in
  if (Nat.leb 48 n && Nat.leb n 57)%bool then Some (Z.of_nat (n - 48)) else None.

(** The digits of [n >= 0] in base [base], most significant first; the
    fuel bounds the number of digits by the number of bits of [n]. *)
Fixpoint render_digits (fuel : nat) (base n : Z) (acc : str) : str :=
  match fuel with
  | O => acc
  | S f =>
      let acc' := digit_char (n mod base) :: acc in
      if n / base =? 0 then acc' else render_digits f base (n / base) acc'
  end.

Definition render (base n : Z) : str :=
  render_digits (S (Z.to_nat (Z.log2 n))) base n [].

(** [oct(n)]: ['0o...'], with a leading ['-'] for a negative [n]. *)
Definition oct (n : Z) : str :=
  if n <? 0 then lit "-0o" ++ render 8 (- n) else lit "0o" ++ render 8 n.

(** [str(n)] *)
Definition str_of_int (n : Z) : str :=
  if n <? 0 then lit "-" ++ render 10 (- n) else render 10 n.

(** [int(s, base)] on a non-empty run of ASCII digits below [base];
    anything else is a [ValueError]. Python also accepts a sign, a base
    prefix, underscores between digits and surrounding blanks. The module
    calls [int] on single characters, where none of these forms a literal,
    and on pieces of its own digit strings, where the only other character
    is the ['o'] left over from [oct] of a negative number, which Python
    rejects as well. *)
Fixpoint int_digits (base : Z) (s : str) (acc : Z) : result Z :=
  match s with
  | [] => Ok acc
  | c :: t =>
      match char_digit c with
      | Some d => if d <? base then int_digits base t (acc * base + d)
                  else Raise ValueError
      | None => Raise ValueError
      end
  end.

Definition int_base (base : Z) (s : str) : result Z :=
  match s with
  | [] => Raise ValueError
  | _ => int_digits base s 0
  end.

(** [int(s)] *)
Definition int (s : str) : result Z := int_base 10 s.

(** [sep.join(parts)] *)
Fixpoint join_sep (sep : str) (parts : list str) : str :=
  match parts with
  | [] => []
  | [p] => p
  | p :: rest => p ++ sep ++ join_sep sep rest
  end.

(** [c.isspace()] on ASCII: tab to carriage return, the four separators
    and the blank. *)
Definition isspace (c : ascii) : bool :=
  let n := nat_of_ascii c in
  ((Nat.leb 9 n && Nat.leb n 13) || (Nat.leb 28 n && Nat.leb n 32))%bool.

(** [s.split()]: the maximal runs of characters that are not blanks.
    [cur] holds the run being read. *)
Fixpoint split_from (cur : str) (s : str) : list str :=
  match s with
  | [] => match cur with [] => [] | _ => [cur] end
  | c :: t =>
      if isspace c
      then match cur with
           | [] => split_from [] t
           | _ => cur :: split_from [] t
           end
      else split_from (cur ++ [c]) t
  end.

Definition split (s : str) : list str := split_from [] s.

(** [s.translate(str.maketrans('', '', chars))]: the characters of [chars]
    are deleted. *)
Definition delete_chars (chars s : str) : str :=
  filter (fun c => negb (mem_char c chars)) s.

End Py.

(** ** The symbol table *)

Inductive SolfegeSymbol : Type := DO | RE | MI | FA | SOL | LA | SI.

Module Symbol.

(** Names of the enumeration in declaration order, each with its value.
    The first name of a value is the member; the others are aliases. *)
Definition members : list (string * Z) :=
  [ ("DO", 1); ("Do", 1); ("do", 1); ("D", 1); ("d", 1); ("p", 1); ("o", 1);
    ("RE", 2); ("Re", 2); ("re", 2); ("R", 2); ("r", 2); ("k", 2); ("e", 2);
    ("MI", 3); ("Mi", 3); ("mi", 3); ("M", 3); ("m", 3); ("i", 3);
    ("FA", 4); ("Fa", 4); ("fa", 4); ("F", 4); ("f", 4); ("a", 4);
    ("SOL", 5); ("Sol", 5); ("sol", 5); ("So", 5); ("so", 5); ("S", 5);
    ("s", 5); ("u", 5);
    ("LA", 6); ("La", 6); ("la", 6); ("L", 6); ("l", 6); ("au", 6);
    ("SI", 7); ("Si", 7); ("si", 7); ("TI", 7); ("Ti", 7); ("ti", 7);
    ("T", 7); ("t", 7); ("ai", 7) ]%string.

Definition value (s : SolfegeSymbol) : Z :=
  match s with
  | DO => 1 | RE => 2 | MI => 3 | FA => 4 | SOL => 5 | LA => 6 | SI => 7
  end.

Definition name (s : SolfegeSymbol) : str :=
  Py.lit match s with
         | DO => "DO" | RE => "RE" | MI => "MI" | FA => "FA"
         | SOL => "SOL" | LA => "LA" | SI => "SI"
         end.

(** [SolfegeSymbol(v)] *)
Definition of_value (v : Z) : result SolfegeSymbol :=
  match v with
  | 1 => Ok DO | 2 => Ok RE | 3 => Ok MI | 4 => Ok FA
  | 5 => Ok SOL | 6 => Ok LA | 7 => Ok SI
  | _ => Raise ValueError
  end.

(** [SolfegeSymbol[nm]] *)
Definition of_name (nm : str) : result SolfegeSymbol :=
  match find (fun m => Py.eqb_str (Py.lit (fst m)) nm) members with
  | Some m => of_value (snd m)
  | None => Raise KeyError
  end.

(** The names that [SolfegeSymbol[nm]] accepts. *)
Definition aliases : list str := map (fun m => Py.lit (fst m)) members.

(** [SolfegeSymbol(int(c))] for a character [c] *)
Definition of_digit (c : ascii) : result SolfegeSymbol :=
  v <- Py.int [c] ;; of_value v.

(** [names[self.value-1]]; the index is always within the table. *)
Definition shortname (s : SolfegeSymbol) : str :=
  [nth (Z.to_nat (value s - 1)) (Py.lit "drmfslt") " "%char].

Definition sescons (s : SolfegeSymbol) : str :=
  [nth (Z.to_nat (value s - 1)) (Py.lit "pkmfslt") " "%char].

Definition sesvowel (s : SolfegeSymbol) : str :=
  nth (Z.to_nat (value s - 1))
      (map (fun c => [c]) (Py.lit "oeiau") ++ [Py.lit "ai"; Py.lit "au"]) [].

End Symbol.

(** ** Words *)

Record SolresolWord : Type := MkWord { word : list SolfegeSymbol }.

(** The surface syntaxes of the string constructor: ['ses'] or ['s'],
    ['num'] or ['#'] or [0], ['full'] or ['default']. *)
Inductive Syntax : Type := SynSes | SynNum | SynFull.

Module Word.

(** [SolresolWord(word)] for a list; [word[0]] selects the branch and
    raises on an empty list. *)
Definition of_symbols (l : list SolfegeSymbol) : result SolresolWord :=
  match l with
  | [] => Raise IndexError
  | _ => Ok (MkWord l)
  end.

Definition of_names (l : list str) : result SolresolWord :=
  match l with
  | [] => Raise IndexError
  | _ => w <- mapM Symbol.of_name l ;; Ok (MkWord w)
  end.

Definition of_ints (l : list Z) : result SolresolWord :=
  match l with
  | [] => Raise IndexError
  | _ => w <- mapM Symbol.of_value l ;; Ok (MkWord w)
  end.

(** [syntax in ['ses','s']] *)
Definition of_ses (s : str) : result SolresolWord :=
  w <- mapM (fun c => Symbol.of_name [c])
            (Py.replace (Py.lit "au") (Py.lit "t")
               (Py.replace (Py.lit "ai") (Py.lit "l") s)) ;;
  Ok (MkWord w).

(** [syntax in ['num','#',0]] *)
Definition of_num (s : str) : result SolresolWord :=
  w <- mapM Symbol.of_digit (Py.strip (Py.lit "0") s) ;;
  Ok (MkWord w).

(** [syntax in ['full','default']]: the test that reads "sol" as one
    token, unless the text goes on as "sola". *)
Definition sol_token (text : str) : bool :=
  Py.startswith (Py.lit "sol") (Py.lower text)
  && negb (Py.startswith (Py.lit "sola") (Py.lower text)).

(** One turn of the [while] loop, on the text still to read and the
    symbols appended so far. *)
Definition full_step (text : str) (acc : list SolfegeSymbol)
  : result (str * list SolfegeSymbol) :=
  if sol_token text then Ok (skipn 3 text, acc ++ [SOL])
  else s <- Symbol.of_name (firstn 2 text) ;; Ok (skipn 2 text, acc ++ [s]).

(** The loop; [None] when the fuel runs out before the text does. *)
Fixpoint full_loop (fuel : nat) (text : str) (acc : list SolfegeSymbol)
  : option (result (list SolfegeSymbol)) :=
  match text with
  | [] => Some (Ok acc)
  | _ :: _ =>
      match fuel with
      | O => None
      | S f =>
          match full_step text acc with
          | Raise e => Some (Raise e)
          | Ok (text', acc') => full_loop f text' acc'
          end
      end
  end.

Definition of_full (s : str) : option (result SolresolWord) :=
  option_map (fun r => w <- r ;; Ok (MkWord w)) (full_loop (length s) s []).

(** [SolresolWord(s, syntax)] for a string *)
Definition of_str (s : str) (syntax : Syntax) : option (result SolresolWord) :=
  match syntax with
  | SynSes => Some (of_ses s)
  | SynNum => Some (of_num s)
  | SynFull => of_full s
  end.

(** The state of the loop after [k] turns, when none of them raised. *)
Fixpoint full_turns (k : nat) (text : str) (acc : list SolfegeSymbol)
  : result (str * list SolfegeSymbol) :=
  match k with
  | O => Ok (text, acc)
  | S k' =>
      match text with
      | [] => Ok (text, acc)
      | _ :: _ => st <- full_step text acc ;; full_turns k' (fst st) (snd st)
      end
  end.

(** [SolresolWord(n)] for an integer *)
Definition of_int (n : Z) : result SolresolWord :=
  w <- mapM Symbol.of_digit (Py.strip (Py.lit "0") (skipn 2 (Py.oct n))) ;;
  Ok (MkWord w).

Definition ses (w : SolresolWord) : str :=
  if Nat.eqb (length (word w)) 1 then Symbol.sesvowel (nth 0 (word w) DO)
  else Py.join (map (fun p => if Nat.eqb (fst p mod 2) 0
                              then Symbol.sescons (snd p)
                              else Symbol.sesvowel (snd p))
                    (Py.enumerate (word w))).

Definition fulltext (w : SolresolWord) : str :=
  Py.lower (Py.join (map Symbol.name (word w))).

Definition value (w : SolresolWord) : result Z :=
  Py.int_base 8
    (Py.join (map (fun ltr => Py.str_of_int (Symbol.value ltr)) (word w))).

End Word.

(** ** Phrases *)

Record Solresol : Type := MkPhrase { words : list SolresolWord }.

Module Phrase.

(** [Solresol(text)] for a list whose items are lists of integers *)
Definition of_int_lists (text : list (list Z)) : result Solresol :=
  ws <- mapM Word.of_ints text ;; Ok (MkPhrase ws).

(** [Solresol(text)] for an integer *)
Definition of_int (text : Z) : result Solresol :=
  let sw := skipn 2 (Py.oct text) in
  ws <- mapM (fun i => n <- Py.int_base 8 (Py.slice sw i (i + 5)) ;;
                       Word.of_int n)
             (Py.range (length sw) 5) ;;
  Ok (MkPhrase ws).

Definition numlist (p : Solresol) : result (list Z) :=
  mapM Word.value (words p).

Definition value (p : Solresol) : result Z :=
  nums <- numlist p ;;
  Py.int_base 8
    (Py.join (map (fun num => Py.ljust 5 "0"%char (skipn 2 (Py.oct num)))
                  nums)).

(** The characters that the text constructor deletes: the 32 punctuation
    characters of ASCII, in the order of the source; the second one is the
    double quote. *)
Definition punctuation : str :=
  Py.lit "!" ++ ["034"%char] ++ Py.lit "#$%&'()*+,-./:;<=>?@[\]^_`{|}~".

(** A comprehension over the string constructor of a word. *)
Fixpoint map_words (f : str -> option (result SolresolWord)) (l : list str)
  : option (result (list SolresolWord)) :=
  match l with
  | [] => Some (Ok [])
  | a :: t =>
      match f a with
      | None => None
      | Some (Raise e) => Some (Raise e)
      | Some (Ok w) =>
          option_map (fun r => ws <- r ;; Ok (w :: ws)) (map_words f t)
      end
  end.

(** [Solresol(text, syntax)] for a string *)
Definition of_text (text : str) (syntax : Syntax) : option (result Solresol) :=
  option_map (fun r => ws <- r ;; Ok (MkPhrase ws))
    (map_words (fun w => Word.of_str w syntax)
       (Py.split (Py.delete_chars punctuation text))).

Definition fulltext (p : Solresol) : str :=
  Py.join_sep (Py.lit " ") (map Word.fulltext (words p)).

Definition ses (p : Solresol) : str :=
  Py.join_sep (Py.lit " ") (map Word.ses (words p)).

End Phrase.

(** ** Predicates of the statements *)

(** Every character of [s] is a digit below [base]. *)
Definition digits_below (base : Z) (s : str) : bool :=
  forallb (fun c => match Py.char_digit c with
                    | Some d => d <? base
                    | None => false
                    end) s.

(** The pieces [sw[i:i+5]] that the integer constructor of a phrase reads. *)
Definition pieces (sw : str) : list str :=
  map (fun i => Py.slice sw i (i + 5)) (Py.range (length sw) 5).

(** The digit string of a word, one digit per symbol:
    [''.join(str(ltr.value) for ltr in self.word)]. *)
Definition word_digits (w : SolresolWord) : str :=
  Py.join (map (fun ltr => Py.str_of_int (Symbol.value ltr)) (word w)).

(** The number of a word in [numlist], for a word that has one. *)
Definition word_number (w : SolresolWord) : Z :=
  match Word.value w with
  | Ok v => v
  | Raise _ => 0
  end.

(** The block of a word in the packed form of a phrase. *)
Definition word_block (w : SolresolWord) : str :=
  Py.ljust 5 "0"%char (word_digits w).

(** A string left-padded with zero digits to [width] characters, as the
    specification pads a rendering. *)
Definition zero_padded (width : nat) (s : str) : str :=
  repeat "0"%char (width - length s) ++ s.

(** The decoding of a packed phrase as the specification words it: the
    rendering in base 8 is zero-padded on the left to the next multiple of
    five, cut into pieces of five characters from the right, and each piece
    is read as a word through the integer constructor. *)
Definition pieces_from_right (s : str) : list str :=
  rev (map (@rev ascii) (pieces (rev s))).

Definition spec_decode (n : Z) : result Solresol :=
  let sw := Py.render 8 n in
  let padded := zero_padded (5 * ((length sw + 4) / 5)) sw in
  ws <- mapM (fun piece => v <- Py.int_base 8 piece ;; Word.of_int v)
             (pieces_from_right padded) ;;
  Ok (MkPhrase ws).

(** The phrase of the third scenario, with symbol ordinals [[1],[7,7]]. *)
Definition scenario3 : Solresol := MkPhrase [MkWord [DO]; MkWord [SI; SI]].

(** A phrase of one word of six symbols, and the phrase it decodes to. *)
Definition six_symbols : Solresol := MkPhrase [MkWord [DO; RE; MI; FA; SOL; LA]].

Definition six_symbols_left : Solresol :=
  MkPhrase [MkWord [DO; RE; MI; FA; SOL]; MkWord [LA]].

Definition six_symbols_right : Solresol :=
  MkPhrase [MkWord [DO]; MkWord [RE; MI; FA; SOL; LA]].

(** The letters of the ses form from a position of the given parity on:
    a consonant at an even position, a vowel at an odd one. *)
Fixpoint ses_alternate (even : bool) (l : list SolfegeSymbol) : str :=
  match l with
  | [] => []
  | x :: t => (if even then Symbol.sescons x else Symbol.sesvowel x)
              ++ ses_alternate (negb even) t
  end.

(** The characters that name a symbol by its value. *)
Definition symbol_digits : str := Eval cbv in Py.lit "1234567".

(** The symbol that the alias table gives for the vowel of a symbol. *)
Definition vowel_alias (x : SolfegeSymbol) : SolfegeSymbol :=
  match x with
  | LA => SI
  | SI => LA
  | _ => x
  end.

(** The letters "a" to "z". *)
Definition is_lower_letter (c : ascii) : bool :=
  let n := nat_of_ascii c in (Nat.leb 97 n && Nat.leb n 122)%bool.

(** * Properties *)

(** ** The error monad *)

Lemma bind_Ok_inv {A B : Type} (r : result A) (k : A -> result B) (b : B) :
  bind r k = Ok b -> exists a, r = Ok a /\ k a = Ok b.
Proof.
  destruct r as [a|e]; simpl; intros H; [eauto | discriminate].
Qed.

Lemma mapM_Ok_map {A B : Type} (f : A -> result B) (g : A -> B) (l : list A) :
  (forall a, In a l -> f a = Ok (g a)) -> mapM f l = Ok (map g l).
Proof.
  induction l as [|a t IH]; intros H; simpl; [reflexivity|].
  rewrite (H a (or_introl eq_refl)); simpl.
  rewrite IH by (intros; apply H; now right). reflexivity.
Qed.

Lemma mapM_length {A B : Type} (f : A -> result B) (l : list A) (bs : list B) :
  mapM f l = Ok bs -> length bs = length l.
Proof.
  revert bs; induction l as [|a t IH]; simpl; intros bs H.
  - now inversion H.
  - apply bind_Ok_inv in H as (b & _ & H).
    apply bind_Ok_inv in H as (bs' & H' & H).
    inversion H; subst; simpl. now rewrite (IH _ H').
Qed.

(** A comprehension raises as soon as one element does; when the element
    expression can raise only [err], that is the exception of the list. *)
Lemma mapM_raises {A B : Type} (f : A -> result B) (err : PyError) (l : list A) :
  (forall a e, f a = Raise e -> e = err) ->
  (exists a, In a l /\ f a = Raise err) ->
  mapM f l = Raise err.
Proof.
  intros Honly; induction l as [|a t IH]; intros (x & Hin & Hx); [easy|].
  simpl. destruct (f a) as [b|e] eqn:Ea; simpl.
  - destruct Hin as [->|Hin]; [congruence|].
    rewrite IH by eauto. reflexivity.
  - now rewrite (Honly _ _ Ea).
Qed.

(** ** Digits *)

Module PyFacts.
Import Py.

Lemma char_digit_inv (c : ascii) (d : Z) :
  char_digit c = Some d -> 0 <= d <= 9 /\ digit_char d = c.
Proof.
  destruct c as [[|] [|] [|] [|] [|] [|] [|] [|]]; cbv;
    intros H; try discriminate; injection H as <-; repeat split; discriminate.
Qed.

Lemma char_digit_zero (c : ascii) :
  char_digit c = Some 0 -> c = "0"%char.
Proof.
  intros H. apply char_digit_inv in H as [_ <-]. reflexivity.
Qed.

Lemma digit_char_inv (d : Z) :
  0 <= d <= 9 -> char_digit (digit_char d) = Some d.
Proof.
  intros H.
  assert (d = 0 \/ d = 1 \/ d = 2 \/ d = 3 \/ d = 4 \/ d = 5 \/ d = 6
          \/ d = 7 \/ d = 8 \/ d = 9) as Hd by lia.
  repeat (destruct Hd as [->|Hd]; [reflexivity|]). now subst.
Qed.

(** *** Rendering *)

Lemma render_digits_acc (f : nat) (b n : Z) (acc : str) :
  render_digits f b n acc = render_digits f b n [] ++ acc.
Proof.
  revert n acc; induction f as [|f IH]; intros n acc; simpl; [reflexivity|].
  destruct (n / b =? 0); [reflexivity|].
  rewrite IH, (IH _ [_]), <- app_assoc. reflexivity.
Qed.

Lemma log2_div_lt (b n : Z) :
  2 <= b -> 0 <= n -> n / b <> 0 -> Z.log2 (n / b) < Z.log2 n.
Proof.
  intros Hb Hn Hq.
  assert (0 < n / b) by (pose proof (Z.div_pos n b); lia).
  assert (b <= n).
  { destruct (Z_lt_le_dec n b); [|assumption].
    rewrite Z.div_small in Hq; lia. }
  assert (n / b <= n / 2).
  { apply Z.div_le_compat_l; lia. }
  pose proof (Z.log2_nonneg n) as HL.
  destruct (Z.log2_spec n) as [_ Hup]; [lia|].
  rewrite Z.pow_succ_r in Hup by assumption.
  assert (n / 2 < 2 ^ Z.log2 n) by (apply Z.div_lt_upper_bound; lia).
  apply Z.log2_lt_pow2; lia.
Qed.

Lemma render_digits_fuel (f1 f2 : nat) (b n : Z) :
  2 <= b -> 0 <= n ->
  (Z.to_nat (Z.log2 n) < f1)%nat -> (Z.to_nat (Z.log2 n) < f2)%nat ->
  render_digits f1 b n [] = render_digits f2 b n [].
Proof.
  intros Hb. revert f2 n; induction f1 as [|f1 IH]; intros f2 n Hn H1 H2;
    [lia|].
  destruct f2 as [|f2]; [lia|]. simpl.
  destruct (n / b =? 0) eqn:Eq; [reflexivity|].
  apply Z.eqb_neq in Eq.
  pose proof (log2_div_lt b n Hb Hn Eq).
  pose proof (Z.log2_nonneg (n / b)).
  rewrite render_digits_acc, (render_digits_acc f2). f_equal.
  apply IH; [apply Z.div_pos; lia | lia | lia].
Qed.

(** The fuel of [render] is enough: the rendering satisfies the equation
    of positional notation. *)
Lemma render_step (b n : Z) :
  2 <= b -> 0 <= n ->
  render b n =
    if n / b =? 0 then [digit_char (n mod b)]
    else render b (n / b) ++ [digit_char (n mod b)].
Proof.
  intros Hb Hn. unfold render at 1. simpl.
  destruct (n / b =? 0) eqn:Eq; [reflexivity|].
  apply Z.eqb_neq in Eq.
  pose proof (log2_div_lt b n Hb Hn Eq).
  pose proof (Z.log2_nonneg (n / b)).
  rewrite render_digits_acc. f_equal.
  apply render_digits_fuel; [lia | apply Z.div_pos; lia | lia | lia].
Qed.

(** *** Reading digits *)

Lemma int_digits_app (b : Z) (s1 s2 : str) (acc : Z) :
  int_digits b (s1 ++ s2) acc = (v <- int_digits b s1 acc ;; int_digits b s2 v).
Proof.
  revert acc; induction s1 as [|c t IH]; intros acc; simpl; [reflexivity|].
  destruct (char_digit c) as [d|]; [|reflexivity].
  destruct (d <? b); [apply IH | reflexivity].
Qed.

Lemma int_base_snoc (b : Z) (s : str) (c : ascii) :
  int_base b (s ++ [c]) = int_digits b (s ++ [c]) 0.
Proof. destruct s; reflexivity. Qed.

Lemma digits_below_app (b : Z) (s1 s2 : str) :
  digits_below b (s1 ++ s2) = digits_below b s1 && digits_below b s2.
Proof. apply forallb_app. Qed.

Lemma digits_below_single (b : Z) (c : ascii) :
  digits_below b [c] = true ->
  exists d, char_digit c = Some d /\ 0 <= d < b /\ digit_char d = c.
Proof.
  unfold digits_below; simpl. destruct (char_digit c) as [d|] eqn:E; [|easy].
  rewrite andb_true_r. intros H%Z.ltb_lt.
  destruct (char_digit_inv _ _ E) as [? ?]. exists d. repeat split; lia || easy.
Qed.

(** Reading a digit string without a leading zero and rendering the result
    gives the string back. *)
Lemma render_int (b : Z) (s : str) :
  2 <= b ->
  digits_below b s = true ->
  hd "0"%char s <> "0"%char ->
  exists v, int_base b s = Ok v /\ 0 < v /\ render b v = s.
Proof.
  intros Hb. induction s as [|c s IH] using rev_ind; intros Hd Hhd;
    [now elim Hhd|].
  rewrite digits_below_app in Hd. apply andb_true_iff in Hd as [Hs Hc].
  apply digits_below_single in Hc as (d & Ec & Hdb & Edc).
  rewrite int_base_snoc, int_digits_app.
  destruct s as [|c0 s].
  - simpl in *. rewrite Ec.
    destruct (Z.ltb_spec d b); [|lia].
    assert (d <> 0).
    { intros ->. apply Hhd. now apply char_digit_zero. }
    exists d. repeat split; [lia|].
    rewrite render_step by lia.
    rewrite Z.div_small, Z.mod_small by lia. simpl. now rewrite Edc.
  - destruct (IH Hs Hhd) as (v & Ev & Hv & Er).
    change (int_base b (c0 :: s)) with (int_digits b (c0 :: s) 0) in Ev.
    rewrite Ev. simpl. rewrite Ec.
    destruct (Z.ltb_spec d b); [|lia].
    exists (v * b + d). repeat split; [nia|].
    rewrite render_step by nia.
    assert ((v * b + d) / b = v) as ->.
    { rewrite Z.div_add_l by lia. rewrite Z.div_small by lia. lia. }
    assert ((v * b + d) mod b = d) as ->.
    { rewrite Z.add_comm, Z.mod_add by lia. apply Z.mod_small; lia. }
    destruct (Z.eqb_spec v 0); [lia|]. now rewrite Er, Edc.
Qed.

(** Rendering a number gives digits of the base, which read back as the
    number. *)
Lemma int_render (b n : Z) :
  2 <= b <= 10 -> 0 <= n ->
  render b n <> [] /\ digits_below b (render b n) = true
  /\ int_digits b (render b n) 0 = Ok n.
Proof.
  intros Hb Hn. generalize Hn. pattern n.
  apply Z_lt_induction; [|exact Hn]. clear n Hn. intros n IH Hn.
  assert (0 <= n mod b < b) as Hm by (apply Z.mod_pos_bound; lia).
  assert (digits_below b [digit_char (n mod b)] = true
          /\ char_digit (digit_char (n mod b)) = Some (n mod b)) as [Hdm Ecm].
  { unfold digits_below; simpl. rewrite digit_char_inv by lia.
    split; [|reflexivity]. rewrite andb_true_r. apply Z.ltb_lt; lia. }
  rewrite render_step by lia.
  destruct (Z.eqb_spec (n / b) 0) as [Eq|Eq].
  - repeat split; [easy | exact Hdm |].
    simpl. rewrite Ecm. destruct (Z.ltb_spec (n mod b) b); [|lia].
    f_equal. pose proof (Z.div_mod n b ltac:(lia)) as E.
    rewrite Eq, Z.mul_0_r, Z.add_0_l in E. now symmetry.
  - assert (0 < n / b) by (pose proof (Z.div_pos n b); lia).
    assert (0 < n).
    { destruct (Z.eq_dec n 0) as [->|]; [|lia]. now rewrite Z.div_0_l in Eq by lia. }
    assert (n / b < n) by (apply Z.div_lt; lia).
    destruct (IH (n / b)) as (Hne & Hdb & Eint); [lia | lia |].
    repeat split.
    + destruct (render b (n / b)); easy.
    + rewrite digits_below_app, Hdb, Hdm. reflexivity.
    + rewrite int_digits_app, Eint. simpl. rewrite Ecm.
      destruct (Z.ltb_spec (n mod b) b); [|lia].
      f_equal. rewrite Z.mul_comm. symmetry. apply Z.div_mod. lia.
Qed.

(** *** Stripping *)

Lemma lstrip_keep (chars s : str) :
  (forall c, In c s -> mem_char c chars = false) -> lstrip chars s = s.
Proof.
  destruct s as [|c t]; intros H; simpl; [reflexivity|].
  now rewrite (H c (or_introl eq_refl)).
Qed.

Lemma lstrip_repeat (chars : str) (c : ascii) (k : nat) (s : str) :
  mem_char c chars = true -> lstrip chars (repeat c k ++ s) = lstrip chars s.
Proof.
  intros Hc. induction k as [|k IH]; simpl; [reflexivity|]. now rewrite Hc.
Qed.

(** Stripping removes a padding made of a stripped character from a
    string that holds none of them. *)
Lemma strip_padded (chars d : str) (c : ascii) (k : nat) :
  (forall x, In x d -> mem_char x chars = false) ->
  mem_char c chars = true ->
  strip chars (d ++ repeat c k) = d.
Proof.
  intros Hd Hc. unfold strip, rstrip.
  assert (lstrip chars (d ++ repeat c k) = d ++ repeat c k \/ d = []) as [->| ->].
  { destruct d as [|x d]; [now right|left]. simpl.
    now rewrite (Hd x (or_introl eq_refl)). }
  - rewrite rev_app_distr, rev_repeat, lstrip_repeat by assumption.
    rewrite lstrip_keep; [apply rev_involutive|].
    intros x Hx. apply Hd. now apply in_rev.
  - simpl. rewrite <- (app_nil_r (repeat c k)), lstrip_repeat by assumption.
    reflexivity.
Qed.

Lemma strip_all (chars s : str) :
  (forall x, In x s -> mem_char x chars = true) -> strip chars s = [].
Proof.
  intros H. unfold strip, rstrip.
  assert (lstrip chars s = []) as ->; [|reflexivity].
  induction s as [|c t IH]; simpl; [reflexivity|].
  rewrite (H c (or_introl eq_refl)). apply IH. intros; apply H. now right.
Qed.

(** *** Ranges and slices *)

Lemma range_zero (step : nat) : (0 < step)%nat -> range 0 step = [].
Proof.
  intros H. unfold range.
  rewrite Nat.div_small by lia. reflexivity.
Qed.

Lemma range_pos (stop step : nat) :
  (0 < step)%nat -> (0 < stop)%nat ->
  range stop step
  = 0%nat :: map (fun i => i + step)%nat (range (stop - step) step).
Proof.
  intros Hs Hp. unfold range.
  assert ((stop + step - 1) / step = S ((stop - step + step - 1) / step))%nat
    as ->.
  { destruct (Nat.le_gt_cases stop step).
    - replace (stop - step)%nat with 0%nat by lia.
      rewrite (Nat.div_small (0 + step - 1)) by lia.
      replace (stop + step - 1)%nat with ((stop - 1) + 1 * step)%nat by lia.
      rewrite Nat.div_add by lia. rewrite Nat.div_small by lia. reflexivity.
    - replace (stop + step - 1)%nat
        with ((stop - step + step - 1) + 1 * step)%nat by lia.
      rewrite Nat.div_add by lia. lia. }
  simpl. f_equal. rewrite <- seq_shift, !map_map.
  apply map_ext. intros k. lia.
Qed.

Lemma pieces_nil : pieces [] = [].
Proof. reflexivity. Qed.

Lemma pieces_cons (s : str) :
  s <> [] -> pieces s = firstn 5 s :: pieces (skipn 5 s).
Proof.
  intros Hs. unfold pieces.
  rewrite range_pos by (destruct s; simpl; easy || lia).
  rewrite map_cons, map_map, length_skipn. f_equal.
  apply map_ext. intros i.
  unfold slice. replace (i + 5 + 5 - (i + 5))%nat with 5%nat by lia.
  replace (i + 5 - i)%nat with 5%nat by lia.
  now rewrite skipn_skipn.
Qed.

(** A string made of blocks of five characters is cut back into them. *)
Lemma pieces_concat (blocks : list str) :
  (forall b, In b blocks -> length b = 5%nat) ->
  pieces (concat blocks) = blocks.
Proof.
  induction blocks as [|b bs IH]; intros H; [reflexivity|].
  assert (length b = 5%nat) as Hb by (apply H; now left).
  simpl. rewrite pieces_cons by (destruct b; simpl in *; [lia | easy]).
  rewrite firstn_app, skipn_app, Hb, Nat.sub_diag.
  rewrite firstn_all2, skipn_all2 by lia.
  cbn [firstn skipn app]. rewrite app_nil_r, IH; [reflexivity|].
  intros; apply H; now right.
Qed.

(** In general the pieces are cut from the left: they concatenate to the
    string, all have five characters except possibly the last one, which
    has one to five. *)
Lemma pieces_spec (s : str) :
  concat (pieces s) = s
  /\ (forall i, (S i < length (pieces s))%nat ->
                length (nth i (pieces s) []) = 5%nat)
  /\ (s <> [] -> (1 <= length (last (pieces s) []) <= 5)%nat)
  /\ (s <> [] -> pieces s <> []).
Proof.
  remember (length s) as n eqn:En. revert s En.
  induction n as [n IH] using lt_wf_ind. intros s En.
  destruct s as [|c t]; [repeat split; simpl; intros; easy || lia|].
  rewrite pieces_cons by easy.
  set (r := skipn 5 (c :: t)).
  assert (length r = length (c :: t) - 5)%nat as Hr by apply length_skipn.
  destruct (IH (length r)) with (s := r) as (Hc & Hi & Hl & Hne);
    [simpl in *; lia | reflexivity |].
  split; [|split; [|split]].
  - cbn [concat]. rewrite Hc. apply firstn_skipn.
  - intros [|i] Hlen; cbn [length nth] in *.
    + assert (r <> []) by (intros Er; rewrite Er in Hlen; simpl in Hlen; lia).
      rewrite length_firstn. destruct r; [easy|]. cbn [length] in Hr |- *. lia.
    + apply Hi. lia.
  - intros _. destruct r as [|c' r'] eqn:Er.
    + rewrite pieces_nil. cbn [last]. rewrite length_firstn.
      cbn [length]. lia.
    + specialize (Hl ltac:(easy)). specialize (Hne ltac:(easy)).
      destruct (pieces (c' :: r')) as [|p ps] eqn:Ep; [easy|].
      exact Hl.
  - easy.
Qed.

End PyFacts.

(** ** Words and their digits *)

Module WordFacts.
Import Py PyFacts.

Lemma str_of_value (x : SolfegeSymbol) :
  str_of_int (Symbol.value x) = [digit_char (Symbol.value x)].
Proof. destruct x; reflexivity. Qed.

Lemma word_digits_map (ws : list SolfegeSymbol) :
  word_digits (MkWord ws) = map (fun x => digit_char (Symbol.value x)) ws.
Proof.
  unfold word_digits, join; simpl.
  induction ws as [|x ws IH]; simpl; [reflexivity|].
  now rewrite str_of_value, IH.
Qed.

Lemma word_digits_below (w : SolresolWord) :
  digits_below 8 (word_digits w) = true.
Proof.
  destruct w as [ws]. rewrite word_digits_map.
  unfold digits_below in *.
  induction ws as [|x ws IH]; [reflexivity|].
  cbn [map forallb]. rewrite IH. destruct x; reflexivity.
Qed.

Lemma word_digits_nonzero (w : SolresolWord) (c : ascii) :
  In c (word_digits w) -> mem_char c (lit "0") = false.
Proof.
  destruct w as [ws]. rewrite word_digits_map.
  intros ([] & <- & _)%in_map_iff; reflexivity.
Qed.

Lemma word_digits_hd (w : SolresolWord) :
  word w <> [] -> hd "0"%char (word_digits w) <> "0"%char.
Proof.
  destruct w as [[|x ws]]; [easy|]. rewrite word_digits_map.
  intros _. destruct x; discriminate.
Qed.

Lemma word_digits_length (w : SolresolWord) :
  length (word_digits w) = length (word w).
Proof. destruct w as [ws]. rewrite word_digits_map. apply length_map. Qed.

Lemma of_digit_digits (w : SolresolWord) :
  mapM Symbol.of_digit (word_digits w) = Ok (word w).
Proof.
  destruct w as [ws]. rewrite word_digits_map. simpl.
  induction ws as [|x ws IH]; simpl; [reflexivity|].
  rewrite IH. destruct x; reflexivity.
Qed.

(** Reading a character as a symbol can raise nothing but [ValueError]. *)
Lemma of_digit_raises (c : ascii) (e : PyError) :
  Symbol.of_digit c = Raise e -> e = ValueError.
Proof.
  unfold Symbol.of_digit, int, int_base, int_digits.
  destruct (char_digit c) as [d|]; simpl; [|congruence].
  destruct (d <? 10); simpl; [|congruence].
  unfold Symbol.of_value.
  repeat match goal with
         | |- context [match ?x with _ => _ end] => destruct x
         end; congruence.
Qed.

Lemma oct_nonneg (v : Z) : 0 <= v -> skipn 2 (oct v) = render 8 v.
Proof.
  intros H. unfold oct. destruct (Z.ltb_spec v 0); [lia | reflexivity].
Qed.

(** The value of a non-empty word renders as its digit string. *)
Lemma word_value_render (w : SolresolWord) :
  word w <> [] ->
  exists v, Word.value w = Ok v /\ 0 < v /\ render 8 v = word_digits w.
Proof.
  intros Hw. apply render_int;
    [lia | apply word_digits_below | now apply word_digits_hd].
Qed.

(** The integer constructor drops a zero padding on the right. *)
Lemma of_int_padded (v : Z) (w : SolresolWord) (k : nat) :
  0 <= v -> render 8 v = word_digits w ++ repeat "0"%char k ->
  Word.of_int v = Ok w.
Proof.
  intros Hv Hr. unfold Word.of_int.
  rewrite oct_nonneg, Hr, strip_padded, of_digit_digits;
    [now destruct w | apply word_digits_nonzero | reflexivity | assumption].
Qed.

End WordFacts.

(** C5. Word packed round-trip: for every word [w] with at least one
    symbol, of any length, [w.value] is an integer and the word built from
    that integer has exactly the symbols of [w]. *)
Theorem word_packed_roundtrip (w : SolresolWord) :
  word w <> [] ->
  exists v, Word.value w = Ok v /\ Word.of_int v = Ok w.
Proof.
  intros Hw.
  destruct (WordFacts.word_value_render w Hw) as (v & Ev & Hv & Er).
  exists v. split; [assumption|].
  apply WordFacts.of_int_padded with (k := 0%nat); [lia|].
  now rewrite app_nil_r.
Qed.

Lemma word_packed_roundtrip_witness :
  word (MkWord [DO; RE; MI; FA; SOL; LA; SI; DO]) <> []
  /\ exists v, Word.value (MkWord [DO; RE; MI; FA; SOL; LA; SI; DO]) = Ok v
               /\ Word.of_int v = Ok (MkWord [DO; RE; MI; FA; SOL; LA; SI; DO]).
Proof.
  split; [discriminate|].
  apply (word_packed_roundtrip (MkWord [DO; RE; MI; FA; SOL; LA; SI; DO])).
  discriminate.
Defined.

(** ** Phrases and their blocks *)

Module PhraseFacts.
Import Py PyFacts WordFacts.

Lemma mapM_map {A B C : Type} (f : B -> result C) (g : A -> B) (l : list A) :
  mapM f (map g l) = mapM (fun a => f (g a)) l.
Proof.
  induction l as [|a t IH]; simpl; [reflexivity|]. now rewrite IH.
Qed.

(** The integer constructor reads the pieces of the rendering. *)
Lemma of_int_reads_pieces (n : Z) :
  Phrase.of_int n
  = (ws <- mapM (fun piece => v <- int_base 8 piece ;; Word.of_int v)
                (pieces (skipn 2 (oct n))) ;;
     Ok (MkPhrase ws)).
Proof.
  unfold Phrase.of_int, pieces. now rewrite mapM_map.
Qed.

Lemma digits_below_repeat (k : nat) : digits_below 8 (repeat "0"%char k) = true.
Proof. induction k as [|k IH]; [reflexivity|]. simpl. exact IH. Qed.

Lemma word_block_below (w : SolresolWord) :
  digits_below 8 (word_block w) = true.
Proof.
  unfold word_block, ljust.
  now rewrite digits_below_app, word_digits_below, digits_below_repeat.
Qed.

Lemma word_block_hd (w : SolresolWord) (rest : str) :
  word w <> [] -> hd "0"%char (word_block w ++ rest) <> "0"%char.
Proof.
  intros Hw. pose proof (word_digits_hd w Hw) as H.
  unfold word_block, ljust. destruct (word_digits w); [easy | exact H].
Qed.

Lemma word_block_length (w : SolresolWord) :
  (length (word w) <= 5)%nat -> length (word_block w) = 5%nat.
Proof.
  intros H. unfold word_block, ljust.
  rewrite length_app, repeat_length, word_digits_length. lia.
Qed.

Lemma blocks_below (ws : list SolresolWord) :
  digits_below 8 (concat (map word_block ws)) = true.
Proof.
  induction ws as [|w ws IH]; [reflexivity|]. simpl.
  now rewrite digits_below_app, word_block_below, IH.
Qed.

Lemma numlist_values (ws : list SolresolWord) :
  (forall w, In w ws -> word w <> []) ->
  Phrase.numlist (MkPhrase ws) = Ok (map word_number ws)
  /\ map (fun num => ljust 5 "0"%char (skipn 2 (oct num))) (map word_number ws)
     = map word_block ws.
Proof.
  intros H. split.
  - apply mapM_Ok_map. intros w Hw. unfold word_number.
    destruct (word_value_render w (H w Hw)) as (v & -> & _). reflexivity.
  - rewrite map_map. apply map_ext_in. intros w Hw. unfold word_number.
    destruct (word_value_render w (H w Hw)) as (v & -> & Hv & Er).
    rewrite oct_nonneg, Er by lia. reflexivity.
Qed.

(** The value of a phrase renders as the blocks of its words in order. *)
Lemma phrase_value_render (p : Solresol) :
  words p <> [] ->
  (forall w, In w (words p) -> word w <> []) ->
  exists v, Phrase.value p = Ok v /\ 0 < v
            /\ render 8 v = concat (map word_block (words p)).
Proof.
  destruct p as [ws]; simpl. intros Hne Hw.
  destruct (numlist_values ws Hw) as [En Eb].
  unfold Phrase.value. rewrite En. cbn [bind]. unfold join. rewrite Eb.
  apply render_int; [lia | apply blocks_below |].
  destruct ws as [|w ws]; [easy|]. simpl.
  apply word_block_hd, Hw. now left.
Qed.

(** A block reads back as its word. *)
Lemma block_decodes (w : SolresolWord) :
  word w <> [] ->
  (v <- int_base 8 (word_block w) ;; Word.of_int v) = Ok w.
Proof.
  intros Hw.
  destruct (render_int 8 (word_block w)) as (v & -> & Hv & Er);
    [lia | apply word_block_below |
     rewrite <- (app_nil_r (word_block w)); now apply word_block_hd |].
  simpl. eapply of_int_padded; [lia | exact Er].
Qed.

Lemma word_block_long (w : SolresolWord) :
  (5 <= length (word w))%nat -> word_block w = word_digits w.
Proof.
  intros H. unfold word_block, ljust. rewrite word_digits_length.
  replace (5 - length (word w))%nat with 0%nat by lia. apply app_nil_r.
Qed.

Lemma blocks_length (ws : list SolresolWord) :
  (5 * length ws <= length (concat (map word_block ws)))%nat
  /\ ((exists w, In w ws /\ (5 < length (word w))%nat) ->
      (5 * length ws < length (concat (map word_block ws)))%nat).
Proof.
  induction ws as [|w ws [IHle IHlt]]; [split; [simpl; lia | now intros (? & [] & _)]|].
  assert (length (word_block w) = Nat.max 5 (length (word w))) as Hb.
  { unfold word_block, ljust.
    rewrite length_app, repeat_length, word_digits_length. lia. }
  cbn [map concat length]. rewrite length_app, Hb. split; [lia|].
  intros (x & [<-|Hin] & Hx); [lia|].
  specialize (IHlt (ex_intro _ x (conj Hin Hx))). lia.
Qed.

(** Cutting from the right and from the left agree on a string whose
    length is a multiple of five. *)
Lemma pieces_length_five (k : nat) (s : str) :
  length s = (5 * k)%nat -> forall b, In b (pieces s) -> length b = 5%nat.
Proof.
  revert s; induction k as [|k IH]; intros s Hs b Hb.
  - destruct s; [now rewrite pieces_nil in Hb | simpl in Hs; lia].
  - rewrite pieces_cons in Hb by (destruct s; simpl in Hs; [lia | easy]).
    destruct Hb as [<-|Hb].
    + rewrite length_firstn. lia.
    + apply (IH (skipn 5 s)); [rewrite length_skipn; lia | exact Hb].
Qed.

Lemma rev_concat (bs : list str) :
  rev (concat bs) = concat (map (@rev ascii) (rev bs)).
Proof.
  induction bs as [|b bs IH]; [reflexivity|]. simpl.
  rewrite rev_app_distr, IH, map_app, concat_app. simpl.
  now rewrite app_nil_r.
Qed.

Lemma pieces_from_right_aligned (s : str) :
  (length s mod 5 = 0)%nat -> pieces_from_right s = pieces s.
Proof.
  intros Hm. apply Nat.Div0.div_exact in Hm.
  pose proof (pieces_length_five _ s Hm) as H5.
  destruct (pieces_spec s) as (Hc & _).
  unfold pieces_from_right.
  rewrite <- Hc at 1. rewrite rev_concat, pieces_concat.
  - rewrite map_map, map_rev, rev_involutive.
    rewrite <- (map_id (pieces s)) at 2. apply map_ext, rev_involutive.
  - intros b (b' & <- & Hb')%in_map_iff. rewrite length_rev.
    apply H5. now apply in_rev.
Qed.

Lemma zero_padded_aligned (s : str) :
  (length s mod 5 = 0)%nat ->
  zero_padded (5 * ((length s + 4) / 5)) s = s.
Proof.
  intros Hm. apply Nat.Div0.div_exact in Hm. unfold zero_padded.
  set (q := (length s / 5)%nat) in *.
  assert ((length s + 4) / 5 = q)%nat as ->.
  { rewrite Hm. replace (5 * q + 4)%nat with (4 + q * 5)%nat by lia.
    rewrite Nat.div_add by lia. reflexivity. }
  rewrite <- Hm, Nat.sub_diag. reflexivity.
Qed.

End PhraseFacts.

(** C1. Phrase packed round-trip, for phrases that have an integer form:
    for every phrase [p] of at least one word whose words all have between
    one and five symbols, [p.value] is an integer and the phrase built from
    that integer has the words of [p], symbol for symbol. *)
Theorem phrase_packed_roundtrip (p : Solresol) :
  words p <> [] ->
  (forall w, In w (words p) -> (1 <= length (word w) <= 5)%nat) ->
  exists v, Phrase.value p = Ok v /\ Phrase.of_int v = Ok p.
Proof.
  intros Hne Hlen.
  assert (forall w, In w (words p) -> word w <> []) as Hw.
  { intros w Hin E. specialize (Hlen w Hin). rewrite E in Hlen. simpl in Hlen. lia. }
  destruct (PhraseFacts.phrase_value_render p Hne Hw) as (v & Ev & Hv & Er).
  exists v. split; [exact Ev|].
  rewrite PhraseFacts.of_int_reads_pieces, WordFacts.oct_nonneg, Er by lia.
  rewrite PyFacts.pieces_concat.
  - rewrite PhraseFacts.mapM_map.
    rewrite (mapM_Ok_map _ (fun w => w)).
    + simpl. rewrite map_id. now destruct p.
    + intros w Hin. now apply PhraseFacts.block_decodes, Hw.
  - intros b (w & <- & Hin)%in_map_iff.
    apply PhraseFacts.word_block_length. specialize (Hlen w Hin). lia.
Qed.

Lemma phrase_packed_roundtrip_witness :
  words scenario3 <> []
  /\ (forall w, In w (words scenario3) -> (1 <= length (word w) <= 5)%nat)
  /\ exists v, Phrase.value scenario3 = Ok v /\ Phrase.of_int v = Ok scenario3.
Proof.
  assert (forall w, In w (words scenario3) -> (1 <= length (word w) <= 5)%nat) as H.
  { intros w [<-|[<-|[]]]; simpl; lia. }
  split; [discriminate|]. split; [exact H|].
  apply (phrase_packed_roundtrip scenario3); [discriminate | exact H].
Defined.

(** C1, as stated, fails on the phrase of no words: all of its words have
    at most five symbols, and its value is not an integer but an exception,
    so there is nothing to decode. *)
Lemma empty_phrase_has_no_value :
  (forall w, In w (words (MkPhrase [])) -> (length (word w) <= 5)%nat)
  /\ Phrase.value (MkPhrase []) = Raise ValueError
  /\ ~ (exists v, Phrase.value (MkPhrase []) = Ok v
                  /\ Phrase.of_int v = Ok (MkPhrase [])).
Proof.
  split; [intros w []|]. split; [reflexivity|].
  intros (v & Ev & _). discriminate Ev.
Qed.

(** Nor has a phrase with a word of no symbols a value. *)
Lemma phrase_of_empty_word_has_no_value :
  Phrase.value (MkPhrase [MkWord []]) = Raise ValueError.
Proof. reflexivity. Qed.

(** C2. The packed value of a phrase does not reject a word of more than
    five symbols: for every phrase of non-empty words one of which has more
    than five symbols, [p.value] is an integer; its rendering in base 8 is
    the concatenation of the words' blocks and so has more than five digits
    per word. *)
Theorem phrase_value_long_word (p : Solresol) :
  (exists w, In w (words p) /\ (5 < length (word w))%nat) ->
  (forall w, In w (words p) -> word w <> []) ->
  exists v, Phrase.value p = Ok v
            /\ Py.render 8 v = concat (map word_block (words p))
            /\ (5 * length (words p) < length (Py.render 8 v))%nat
            /\ (forall w, In w (words p) -> (5 < length (word w))%nat ->
                          word_block w = word_digits w).
Proof.
  intros Hlong Hw.
  assert (words p <> []) as Hne.
  { destruct Hlong as (w & Hin & _). now destruct (words p). }
  destruct (PhraseFacts.phrase_value_render p Hne Hw) as (v & Ev & Hv & Er).
  exists v. repeat split; [exact Ev | exact Er | |].
  - rewrite Er. now apply PhraseFacts.blocks_length.
  - intros w _ H. apply PhraseFacts.word_block_long. lia.
Qed.

Lemma phrase_value_long_word_witness :
  (exists w, In w (words six_symbols) /\ (5 < length (word w))%nat)
  /\ (forall w, In w (words six_symbols) -> word w <> [])
  /\ exists v, Phrase.value six_symbols = Ok v
            /\ Py.render 8 v = concat (map word_block (words six_symbols))
            /\ (5 * length (words six_symbols) < length (Py.render 8 v))%nat
            /\ (forall w, In w (words six_symbols) -> (5 < length (word w))%nat ->
                          word_block w = word_digits w).
Proof.
  assert (exists w, In w (words six_symbols) /\ (5 < length (word w))%nat) as H1.
  { eexists; split; [now left | simpl; lia]. }
  assert (forall w, In w (words six_symbols) -> word w <> []) as H2.
  { intros w [<-|[]]; discriminate. }
  split; [exact H1|]. split; [exact H2|].
  apply (phrase_value_long_word six_symbols H1 H2).
Defined.

(** C2, as stated, fails on a phrase of one word of six symbols: its value
    is the integer 0o123456, which decodes to two words. *)
Lemma phrase_value_six_symbols :
  (exists w, In w (words six_symbols) /\ length (word w) = 6%nat)
  /\ Phrase.value six_symbols = Ok 42798
  /\ Phrase.of_int 42798 = Ok six_symbols_left.
Proof.
  split; [eexists; split; [now left | reflexivity]|].
  split; vm_compute; reflexivity.
Qed.

(** C3. The phrase with symbol ordinals [[1],[7,7]] has the packed value
    whose rendering in base 8, zero-padded to ten digits, is "1000077000":
    each word's digits padded with zero digits on the right to five, in
    word order. Decoding that integer gives the two words back. *)
Theorem scenario3_packed :
  Phrase.of_int_lists [[1]; [7; 7]] = Ok scenario3
  /\ Phrase.value scenario3 = Ok 134249984
  /\ zero_padded 10 (Py.render 8 134249984) = Py.lit "1000077000"
  /\ Phrase.of_int 134249984 = Ok scenario3.
Proof. repeat split; vm_compute; reflexivity. Qed.

(** C3, as stated, fails: the rendering is not "0000100077". *)
Lemma scenario3_not_left_padded :
  Phrase.of_int_lists [[1]; [7; 7]] = Ok scenario3
  /\ exists v, Phrase.value scenario3 = Ok v
               /\ zero_padded 10 (Py.render 8 v) <> Py.lit "0000100077".
Proof.
  split; [reflexivity|]. exists 134249984. split; [reflexivity|].
  vm_compute. discriminate.
Qed.

(** C4. Phrase decode from a packed integer: for every [n >= 0] the phrase
    built from [n] reads the rendering of [n] in base 8 cut into pieces from
    the left, without padding: the pieces concatenate to the rendering, all
    have five characters except possibly the last, which has one to five,
    and each is read as a word through the integer constructor. When the
    length of the rendering is a multiple of five this is the
    specification's decoding. *)
Theorem phrase_of_int_pieces (n : Z) :
  0 <= n ->
  exists ps : list str,
    concat ps = Py.render 8 n
    /\ ps <> []
    /\ (forall i, (S i < length ps)%nat -> length (nth i ps []) = 5%nat)
    /\ (1 <= length (last ps []) <= 5)%nat
    /\ Phrase.of_int n
       = (ws <- mapM (fun piece => v <- Py.int_base 8 piece ;; Word.of_int v) ps ;;
          Ok (MkPhrase ws))
    /\ ((length (Py.render 8 n) mod 5 = 0)%nat ->
        Phrase.of_int n = spec_decode n).
Proof.
  intros Hn. exists (pieces (Py.render 8 n)).
  destruct (PyFacts.pieces_spec (Py.render 8 n)) as (Hc & Hi & Hl & Hne).
  destruct (PyFacts.int_render 8 n) as (Hr & _); [lia | lia |].
  assert (Phrase.of_int n
          = (ws <- mapM (fun piece => v <- Py.int_base 8 piece ;; Word.of_int v)
                        (pieces (Py.render 8 n)) ;;
             Ok (MkPhrase ws))) as E.
  { now rewrite PhraseFacts.of_int_reads_pieces, WordFacts.oct_nonneg. }
  repeat split; auto; try (now apply Hl).
  intros Hm. rewrite E. unfold spec_decode.
  rewrite PhraseFacts.zero_padded_aligned by exact Hm.
  now rewrite PhraseFacts.pieces_from_right_aligned.
Qed.

Lemma phrase_of_int_pieces_witness :
  0 <= 42798
  /\ exists ps : list str,
    concat ps = Py.render 8 42798
    /\ ps <> []
    /\ (forall i, (S i < length ps)%nat -> length (nth i ps []) = 5%nat)
    /\ (1 <= length (last ps []) <= 5)%nat
    /\ Phrase.of_int 42798
       = (ws <- mapM (fun piece => v <- Py.int_base 8 piece ;; Word.of_int v) ps ;;
          Ok (MkPhrase ws))
    /\ ((length (Py.render 8 42798) mod 5 = 0)%nat ->
        Phrase.of_int 42798 = spec_decode 42798).
Proof.
  split; [lia|]. apply (phrase_of_int_pieces 42798). lia.
Defined.

(** C4, as stated, fails on 0o123456, whose rendering has six digits: the
    code cuts it into "12345" and "6", the specification's decoding into
    "00001" and "23456". *)
Lemma phrase_of_int_six_digits :
  Py.render 8 42798 = Py.lit "123456"
  /\ Phrase.of_int 42798 = Ok six_symbols_left
  /\ spec_decode 42798 = Ok six_symbols_right
  /\ Phrase.of_int 42798 <> spec_decode 42798.
Proof.
  repeat split; try (vm_compute; reflexivity).
  vm_compute. discriminate.
Qed.

(** C6. Word construction from a packed integer fails, with [ValueError],
    for every integer whose rendering still holds a digit 0 once the zero
    digits at both of its ends are stripped. *)
Theorem word_of_int_inner_zero (n : Z) :
  In "0"%char (Py.strip (Py.lit "0") (skipn 2 (Py.oct n))) ->
  Word.of_int n = Raise ValueError.
Proof.
  intros H. unfold Word.of_int.
  rewrite (mapM_raises Symbol.of_digit ValueError); [reflexivity | |].
  - apply WordFacts.of_digit_raises.
  - exists "0"%char. split; [exact H | reflexivity].
Qed.

Lemma word_of_int_inner_zero_witness :
  In "0"%char (Py.strip (Py.lit "0") (skipn 2 (Py.oct 65)))
  /\ Word.of_int 65 = Raise ValueError.
Proof.
  assert (In "0"%char (Py.strip (Py.lit "0") (skipn 2 (Py.oct 65)))) as H.
  { vm_compute. right. left. reflexivity. }
  split; [exact H | apply (word_of_int_inner_zero 65 H)].
Defined.

(** C6, as stated, fails on 8: its rendering "10" has no leading zero and
    holds a digit 0, and the word [DO] is built from it. *)
Lemma word_of_int_trailing_zero :
  Py.render 8 8 = Py.lit "10"
  /\ In "0"%char (Py.lstrip (Py.lit "0") (Py.render 8 8))
  /\ Word.of_int 8 = Ok (MkWord [DO]).
Proof.
  split; [reflexivity|]. split; [|reflexivity].
  vm_compute. right. left. reflexivity.
Qed.

(** ** Numeric syntax *)

Module NumFacts.
Import Py PyFacts.

Lemma lstrip_nil_all (chars s : str) :
  lstrip chars s = [] -> forall x, In x s -> mem_char x chars = true.
Proof.
  induction s as [|c t IH]; simpl; [easy|].
  destruct (mem_char c chars) eqn:Ec; [|discriminate].
  intros H x [<-|Hx]; [exact Ec | now apply IH].
Qed.

Lemma lstrip_hd (chars s : str) (c : ascii) (t : str) :
  lstrip chars s = c :: t -> mem_char c chars = false.
Proof.
  induction s as [|a s IH]; simpl; [discriminate|].
  destruct (mem_char a chars) eqn:Ea; [exact IH|].
  intros H. injection H as <- _. exact Ea.
Qed.

Lemma strip_nil_all (chars s : str) :
  strip chars s = [] -> forall x, In x s -> mem_char x chars = true.
Proof.
  unfold strip, rstrip. intros H.
  assert (lstrip chars (rev (lstrip chars s)) = []) as H'.
  { rewrite <- (rev_involutive (lstrip _ (rev _))), H. reflexivity. }
  destruct (lstrip chars s) as [|c t] eqn:E; [now apply lstrip_nil_all|].
  pose proof (lstrip_hd _ _ _ _ E) as Hc.
  pose proof (lstrip_nil_all _ _ H' c) as Hc'.
  rewrite Hc' in Hc; [discriminate|]. apply -> in_rev. now left.
Qed.

Lemma mem_zero (x : ascii) : mem_char x (lit "0") = true -> "0"%char = x.
Proof.
  unfold mem_char; simpl. rewrite orb_false_r.
  intros H%Ascii.eqb_eq. now symmetry.
Qed.

(** A word read in numeric syntax has one symbol for each character left
    by the stripping. *)
Lemma of_num_length (s : str) (w : SolresolWord) :
  Word.of_num s = Ok w -> length (word w) = length (strip (lit "0") s).
Proof.
  unfold Word.of_num. intros (l & Hl & H)%bind_Ok_inv.
  inversion H; subst; simpl. now apply mapM_length in Hl.
Qed.

End NumFacts.

(** C7. Parsing a word in numeric syntax does not fail on an input string
    that is empty after stripping its zero characters, that is, on a string
    of zero characters only: the word with no symbols is built. *)
Theorem word_of_num_zeros (s : str) :
  Py.strip (Py.lit "0") s = [] ->
  Forall (eq "0"%char) s /\ Word.of_num s = Ok (MkWord []).
Proof.
  intros H. split.
  - apply Forall_forall. intros x Hx.
    apply NumFacts.mem_zero. now apply (NumFacts.strip_nil_all _ s).
  - unfold Word.of_num. rewrite H. reflexivity.
Qed.

Lemma word_of_num_zeros_witness :
  Py.strip (Py.lit "0") (Py.lit "000") = []
  /\ Forall (eq "0"%char) (Py.lit "000")
  /\ Word.of_num (Py.lit "000") = Ok (MkWord []).
Proof.
  split; [reflexivity|].
  apply (word_of_num_zeros (Py.lit "000")). reflexivity.
Defined.

(** C7, as stated, fails on "000": it is empty after stripping, the
    constructor returns, and the word it returns has no symbol. *)
Lemma word_of_num_empty_word :
  Py.strip (Py.lit "0") (Py.lit "000") = []
  /\ exists w, Word.of_num (Py.lit "000") = Ok w /\ length (word w) = 0%nat.
Proof.
  split; [reflexivity|]. exists (MkWord []). split; reflexivity.
Qed.

(** ** Full syntax *)

Module FullFacts.
Import Py.

Lemma eqb_str_eq (a b : str) : eqb_str a b = true <-> a = b.
Proof.
  unfold eqb_str. destruct (list_eq_dec ascii_dec a b); split; congruence.
Qed.

Lemma members_have_symbols (m : string * Z) :
  In m Symbol.members -> exists x, Symbol.of_value (snd m) = Ok x.
Proof.
  assert (forallb (fun m => match Symbol.of_value (snd m) with
                            | Ok _ => true
                            | Raise _ => false
                            end) Symbol.members = true) as H by reflexivity.
  intros Hm. apply (proj1 (forallb_forall _ _) H) in Hm.
  destruct (Symbol.of_value (snd m)) as [x|]; [now exists x | discriminate].
Qed.

(** Lookup by name succeeds on the aliases and raises [KeyError] on
    every other string. *)
Lemma of_name_alias (nm : str) :
  In nm Symbol.aliases -> exists x, Symbol.of_name nm = Ok x.
Proof.
  intros (m & <- & Hm)%in_map_iff. unfold Symbol.of_name.
  destruct (find _ Symbol.members) as [m'|] eqn:E.
  - apply find_some in E as [Hm' _]. now apply members_have_symbols.
  - apply (find_none _ _ E) in Hm. simpl in Hm.
    assert (eqb_str (lit (fst m)) (lit (fst m)) = true) by now apply eqb_str_eq.
    congruence.
Qed.

Lemma of_name_unknown (nm : str) :
  ~ In nm Symbol.aliases -> Symbol.of_name nm = Raise KeyError.
Proof.
  intros Hn. unfold Symbol.of_name.
  destruct (find _ Symbol.members) as [m|] eqn:E; [|reflexivity].
  apply find_some in E as [Hm Heq]. apply eqb_str_eq in Heq.
  elim Hn. apply in_map_iff. now exists m.
Qed.

(** A turn of the loop shortens the text. *)
Lemma full_step_shrinks (text : str) (acc : list SolfegeSymbol)
      (text' : str) (acc' : list SolfegeSymbol) :
  text <> [] -> Word.full_step text acc = Ok (text', acc') ->
  (length text' < length text)%nat.
Proof.
  intros Hne. unfold Word.full_step.
  destruct (Word.sol_token text).
  - intros H. replace text' with (skipn 3 text) by congruence.
    rewrite length_skipn. destruct text; [easy | simpl; lia].
  - destruct (Symbol.of_name _); cbn [bind]; [|discriminate].
    intros H. replace text' with (skipn 2 text) by congruence.
    rewrite length_skipn. destruct text; [easy | simpl; lia].
Qed.

(** The loop ends within as many turns as the text has characters. *)
Lemma full_loop_fuel (f1 f2 : nat) (text : str) (acc : list SolfegeSymbol) :
  (length text <= f1)%nat -> (length text <= f2)%nat ->
  Word.full_loop f1 text acc = Word.full_loop f2 text acc.
Proof.
  revert f2 text acc. induction f1 as [|f1 IH]; intros f2 text acc H1 H2.
  - destruct text; [now destruct f2 | simpl in H1; lia].
  - destruct text as [|c t]; [now destruct f2|].
    destruct f2 as [|f2]; [simpl in H2; lia|].
    cbn [Word.full_loop].
    destruct (Word.full_step (c :: t) acc) as [[text' acc']|e] eqn:E;
      [|reflexivity].
    apply full_step_shrinks in E; [|easy].
    apply IH; simpl in *; lia.
Qed.

Lemma full_loop_total (text : str) (acc : list SolfegeSymbol) :
  exists r, Word.full_loop (length text) text acc = Some r.
Proof.
  remember (length text) as n eqn:En. revert text acc En.
  induction n as [n IH] using lt_wf_ind. intros text acc En.
  destruct text as [|c t]; [subst; simpl; eauto|].
  subst n. cbn [length Word.full_loop].
  destruct (Word.full_step (c :: t) acc) as [[text' acc']|e] eqn:E; [|eauto].
  apply full_step_shrinks in E; [|easy].
  rewrite (full_loop_fuel _ (length text')) by (simpl in *; lia).
  apply (IH (length text')); [exact E | reflexivity].
Qed.

(** The string constructor returns or raises in every syntax. *)
Lemma of_str_total (s : str) (syntax : Syntax) :
  exists r, Word.of_str s syntax = Some r.
Proof.
  destruct syntax; simpl; eauto.
  unfold Word.of_full. destruct (full_loop_total s []) as (r & ->).
  simpl; eauto.
Qed.

(** The loop goes on from any state it has reached. *)
Lemma full_loop_turns (k : nat) (s : str) (a : list SolfegeSymbol)
      (text : str) (acc : list SolfegeSymbol) (f : nat) :
  Word.full_turns k s a = Ok (text, acc) -> (length s <= f)%nat ->
  Word.full_loop f s a = Word.full_loop (length text) text acc.
Proof.
  revert s a f. induction k as [|k IH]; intros s a f Ht Hf.
  - inversion Ht; subst. now apply full_loop_fuel.
  - destruct s as [|c t].
    + inversion Ht; subst. now apply full_loop_fuel.
    + cbn [Word.full_turns] in Ht.
      destruct f as [|f]; [simpl in Hf; lia|]. cbn [Word.full_loop].
      destruct (Word.full_step (c :: t) a) as [[text' acc']|e] eqn:E;
        [|discriminate].
      simpl in Ht. apply full_step_shrinks in E; [|easy].
      apply IH; [exact Ht | simpl in *; lia].
Qed.

End FullFacts.

(** C8. Parsing a word in full syntax fails, with [KeyError], whenever the
    slice [word[:2]] that a turn of the scan looks up matches no registered
    alias; the slice has two characters, or one when a single character is
    left. *)
Theorem word_of_full_slice (s : str) (k : nat) (text : str)
        (acc : list SolfegeSymbol) :
  Word.full_turns k s [] = Ok (text, acc) ->
  text <> [] ->
  Word.sol_token text = false ->
  ~ In (firstn 2 text) Symbol.aliases ->
  Word.of_full s = Some (Raise KeyError).
Proof.
  intros Ht Hne Hsol Hno. unfold Word.of_full.
  rewrite (FullFacts.full_loop_turns k s [] text acc) by (exact Ht || lia).
  destruct text as [|c t]; [easy|].
  cbn [length Word.full_loop]. unfold Word.full_step.
  rewrite Hsol, FullFacts.of_name_unknown by exact Hno. reflexivity.
Qed.

Lemma word_of_full_slice_witness :
  Word.full_turns 1 (Py.lit "dox") [] = Ok (Py.lit "x", [DO])
  /\ Py.lit "x" <> []
  /\ Word.sol_token (Py.lit "x") = false
  /\ ~ In (firstn 2 (Py.lit "x")) Symbol.aliases
  /\ Word.of_full (Py.lit "dox") = Some (Raise KeyError).
Proof.
  assert (~ In (firstn 2 (Py.lit "x")) Symbol.aliases) as Hno.
  { intros Hin. destruct (FullFacts.of_name_alias _ Hin) as (x & Ex).
    discriminate Ex. }
  split; [reflexivity|]. split; [discriminate|]. split; [reflexivity|].
  split; [exact Hno|].
  apply (word_of_full_slice (Py.lit "dox") 1 (Py.lit "x") [DO]);
    [reflexivity | discriminate | reflexivity | exact Hno].
Defined.

(** A single last character that is a registered alias is read as a symbol,
    and the word is built. *)
Lemma word_of_full_last_letter (s : str) (k : nat) (c : ascii)
      (acc : list SolfegeSymbol) :
  Word.full_turns k s [] = Ok ([c], acc) ->
  In [c] Symbol.aliases ->
  exists x, Symbol.of_name [c] = Ok x
            /\ Word.of_full s = Some (Ok (MkWord (acc ++ [x]))).
Proof.
  intros Ht Hin. unfold Word.of_full.
  rewrite (FullFacts.full_loop_turns k s [] [c] acc) by (exact Ht || lia).
  destruct (FullFacts.of_name_alias _ Hin) as (x & Ex).
  exists x. split; [exact Ex|].
  cbn [length Word.full_loop]. unfold Word.full_step.
  replace (Word.sol_token [c]) with false by now destruct c as [[] [] [] [] [] [] [] []].
  cbn [firstn skipn]. rewrite Ex. reflexivity.
Qed.

(** C8, as stated, fails on "dod": after the first turn a single character
    is left, and the word [DO; DO] is built. *)
Lemma word_of_full_trailing_letter :
  Word.full_turns 1 (Py.lit "dod") [] = Ok (Py.lit "d", [DO])
  /\ (length (Py.lit "d") < 2)%nat
  /\ Word.of_full (Py.lit "dod") = Some (Ok (MkWord [DO; DO])).
Proof. repeat split; vm_compute; lia || reflexivity. Qed.

(** [fulltext] spells a word symbol by symbol. *)
Module SpellFacts.
Import Py.

Lemma lower_name (x : SolfegeSymbol) :
  lower (Symbol.name x)
  = lit match x with
        | DO => "do" | RE => "re" | MI => "mi" | FA => "fa"
        | SOL => "sol" | LA => "la" | SI => "si"
        end.
Proof. destruct x; reflexivity. Qed.

Lemma fulltext_cons (x : SolfegeSymbol) (ws : list SolfegeSymbol) :
  Word.fulltext (MkWord (x :: ws))
  = lower (Symbol.name x) ++ Word.fulltext (MkWord ws).
Proof. unfold Word.fulltext, lower, join; simpl. apply map_app. Qed.

(** No spelling begins with the letter that would turn a preceding
    "sol" into "sola". *)
Lemma fulltext_not_a (ws : list SolfegeSymbol) :
  startswith (lit "a") (lower (Word.fulltext (MkWord ws))) = false.
Proof.
  destruct ws as [|x ws]; [reflexivity|].
  rewrite fulltext_cons, lower_name. destruct x; reflexivity.
Qed.

Lemma sol_token_sol (rest : str) :
  startswith (lit "a") (lower rest) = false ->
  Word.sol_token (lit "sol" ++ rest) = true.
Proof.
  intros H. unfold Word.sol_token.
  change (lower (lit "sol" ++ rest)) with (lit "sol" ++ lower rest).
  change (startswith (lit "sola") (lit "sol" ++ lower rest))
    with (startswith (lit "a") (lower rest)).
  rewrite H. reflexivity.
Qed.

(** The loop reads a spelling back, symbol after symbol. *)
Lemma full_loop_fulltext (ws acc : list SolfegeSymbol) (f : nat) :
  (length (Word.fulltext (MkWord ws)) <= f)%nat ->
  Word.full_loop f (Word.fulltext (MkWord ws)) acc = Some (Ok (acc ++ ws)).
Proof.
  revert acc f. induction ws as [|x ws IH]; intros acc f Hf.
  - destruct f; simpl; now rewrite app_nil_r.
  - rewrite fulltext_cons, lower_name in *.
    destruct f as [|f]; [destruct x; simpl in Hf; lia|].
    assert (Word.full_step (lit match x with
        | DO => "do" | RE => "re" | MI => "mi" | FA => "fa"
        | SOL => "sol" | LA => "la" | SI => "si"
        end ++ Word.fulltext (MkWord ws)) acc
            = Ok (Word.fulltext (MkWord ws), acc ++ [x])) as Estep.
    { unfold Word.full_step. destruct x; try reflexivity.
      rewrite sol_token_sol by apply fulltext_not_a. reflexivity. }
    assert (forall t, Word.full_loop (S f) t acc
              = match t with
                | [] => Some (Ok acc)
                | _ :: _ => match Word.full_step t acc with
                            | Raise e => Some (Raise e)
                            | Ok (t', acc') => Word.full_loop f t' acc'
                            end
                end) as Eloop by (intros []; reflexivity).
    rewrite Eloop, Estep.
    rewrite IH by (destruct x; simpl in Hf; lia).
    rewrite <- app_assoc. now destruct x.
Qed.

End SpellFacts.

(** C9. Full-text word round-trip: for every word [w] of at most five
    symbols, parsing [w.fulltext] in full syntax gives a word with the
    symbols of [w]; this covers SOL followed by LA. *)
Theorem word_fulltext_roundtrip (w : SolresolWord) :
  (length (word w) <= 5)%nat ->
  Word.of_full (Word.fulltext w) = Some (Ok w).
Proof.
  intros _. destruct w as [ws]. unfold Word.of_full.
  now rewrite SpellFacts.full_loop_fulltext.
Qed.

Lemma word_fulltext_roundtrip_witness :
  (length (word (MkWord [DO; SOL; LA; SI])) <= 5)%nat
  /\ Word.of_full (Word.fulltext (MkWord [DO; SOL; LA; SI]))
     = Some (Ok (MkWord [DO; SOL; LA; SI])).
Proof.
  split; [simpl; lia|].
  apply (word_fulltext_roundtrip (MkWord [DO; SOL; LA; SI])). simpl; lia.
Defined.

(** ** Phonetic syntax *)

Module SesFacts.
Import Py.

Lemma replace_miss (old new : str) (c : ascii) (s : str) :
  startswith old (c :: s) = false ->
  replace old new (c :: s) = c :: replace old new s.
Proof. intros H. unfold replace. simpl. now rewrite H. Qed.

Lemma replace_hit_ai (s : str) :
  replace (lit "ai") (lit "l") ("a" :: "i" :: s)%char
  = "l"%char :: replace (lit "ai") (lit "l") s.
Proof. reflexivity. Qed.

Lemma replace_hit_au (s : str) :
  replace (lit "au") (lit "t") ("a" :: "u" :: s)%char
  = "t"%char :: replace (lit "au") (lit "t") s.
Proof. reflexivity. Qed.

(** The letters at positions [k], [k+1], ... depend on the parity of [k]
    only. *)
Lemma parity_succ (k : nat) :
  Nat.eqb (S k mod 2) 0 = negb (Nat.eqb (k mod 2) 0).
Proof.
  pose proof (Nat.mod_upper_bound k 2 ltac:(lia)).
  pose proof (Nat.mod_upper_bound (S k) 2 ltac:(lia)).
  pose proof (Nat.div_mod_eq k 2). pose proof (Nat.div_mod_eq (S k) 2).
  destruct (Nat.eqb_spec (S k mod 2) 0), (Nat.eqb_spec (k mod 2) 0);
    simpl; try reflexivity; lia.
Qed.

Lemma letters_alternate (k : nat) (l : list SolfegeSymbol) :
  join (map (fun p => if Nat.eqb (fst p mod 2) 0
                      then Symbol.sescons (snd p)
                      else Symbol.sesvowel (snd p))
            (combine (seq k (length l)) l))
  = ses_alternate (Nat.eqb (k mod 2) 0) l.
Proof.
  revert k. induction l as [|x l IH]; intros k; [reflexivity|].
  cbn [length seq combine map join concat ses_alternate fst snd].
  f_equal. rewrite <- parity_succ. apply IH.
Qed.

Lemma ses_alternate_form (w : SolresolWord) :
  Word.ses w = ses_alternate (negb (Nat.eqb (length (word w)) 1)) (word w).
Proof.
  destruct w as [ws]. unfold Word.ses, enumerate. cbn [word].
  destruct (Nat.eqb_spec (length ws) 1) as [E|E].
  - destruct ws as [|x [|y ws]]; try discriminate. simpl.
    now rewrite app_nil_r.
  - apply (letters_alternate 0).
Qed.

(** What follows a vowel is a consonant, which is neither the second
    letter of "ai" nor that of "au". *)
Lemma consonant_not_i (l : list SolfegeSymbol) :
  startswith (lit "i") (ses_alternate true l) = false.
Proof. destruct l as [|[] l]; reflexivity. Qed.

Lemma consonant_not_u (l : list SolfegeSymbol) :
  startswith (lit "u") (replace (lit "ai") (lit "l") (ses_alternate true l))
  = false.
Proof. destruct l as [|[] l]; reflexivity. Qed.

Ltac spell_letters :=
  repeat match goal with
         | |- context [Symbol.sescons ?x] =>
             let v := eval vm_compute in (Symbol.sescons x) in
             change (Symbol.sescons x) with v
         | |- context [Symbol.sesvowel ?x] =>
             let v := eval vm_compute in (Symbol.sesvowel x) in
             change (Symbol.sesvowel x) with v
         end;
  cbn [app].

(** Rewriting the digraphs and reading letter by letter gives the
    symbols back. *)
Lemma ses_decodes (l : list SolfegeSymbol) (even : bool) :
  mapM (fun c => Symbol.of_name [c])
       (replace (lit "au") (lit "t")
          (replace (lit "ai") (lit "l") (ses_alternate even l)))
  = Ok l.
Proof.
  revert even. induction l as [|x l IH]; intros even; [reflexivity|].
  cbn [ses_alternate].
  destruct even; cbn [negb].
  - specialize (IH false).
    destruct x; spell_letters;
      do 2 rewrite replace_miss by reflexivity;
      cbn [mapM]; rewrite IH; reflexivity.
  - specialize (IH true).
    pose proof (consonant_not_i l) as Hi.
    pose proof (consonant_not_u l) as Hu.
    destruct x; spell_letters.
    + do 2 rewrite replace_miss by reflexivity.
      cbn [mapM]; rewrite IH; reflexivity.
    + do 2 rewrite replace_miss by reflexivity.
      cbn [mapM]; rewrite IH; reflexivity.
    + do 2 rewrite replace_miss by reflexivity.
      cbn [mapM]; rewrite IH; reflexivity.
    + rewrite replace_miss by exact Hi.
      rewrite replace_miss by exact Hu.
      cbn [mapM]; rewrite IH; reflexivity.
    + do 2 rewrite replace_miss by reflexivity.
      cbn [mapM]; rewrite IH; reflexivity.
    + rewrite replace_hit_ai.
      rewrite replace_miss by reflexivity.
      cbn [mapM]; rewrite IH; reflexivity.
    + do 2 rewrite (replace_miss (lit "ai")) by reflexivity.
      rewrite replace_hit_au.
      cbn [mapM]; rewrite IH; reflexivity.
Qed.

End SesFacts.

(** C10. Phonetic (ses) round-trip: for every word [w] with at least one
    symbol, parsing [w.ses] in ses syntax gives a word with exactly the
    symbols of [w], for a single symbol (the bare vowel) as for several
    (consonants and vowels in turn). *)
Theorem word_ses_roundtrip (w : SolresolWord) :
  word w <> [] ->
  Word.of_ses (Word.ses w) = Ok w.
Proof.
  intros _. unfold Word.of_ses.
  rewrite SesFacts.ses_alternate_form, SesFacts.ses_decodes.
  now destruct w.
Qed.

Lemma word_ses_roundtrip_witness :
  word (MkWord [LA; LA; SI; SI; FA; DO]) <> []
  /\ Word.of_ses (Word.ses (MkWord [LA; LA; SI; SI; FA; DO]))
     = Ok (MkWord [LA; LA; SI; SI; FA; DO]).
Proof.
  split; [discriminate|].
  apply (word_ses_roundtrip (MkWord [LA; LA; SI; SI; FA; DO])). discriminate.
Defined.


(** * Further properties of the code *)

(** ** Lookups in the symbol table *)

Module TableFacts.
Import Py.

Lemma of_value_value (x : SolfegeSymbol) :
  Symbol.of_value (Symbol.value x) = Ok x.
Proof. destruct x; reflexivity. Qed.

Lemma of_value_inv (v : Z) (x : SolfegeSymbol) :
  Symbol.of_value v = Ok x -> Symbol.value x = v.
Proof.
  destruct v as [|p|p]; try discriminate.
  destruct p as [[[p|p|]|[p|p|]|]|[[p|p|]|[p|p|]|]|]; try discriminate;
    intros H; injection H as <-; reflexivity.
Qed.

Lemma of_value_raises (v : Z) (e : PyError) :
  Symbol.of_value v = Raise e -> e = ValueError /\ ~ (1 <= v <= 7).
Proof.
  intros H. split.
  - unfold Symbol.of_value in H.
    repeat match type of H with
           | context [match ?t with _ => _ end] => destruct t
           end; congruence.
  - intros Hv.
    assert (v = 1 \/ v = 2 \/ v = 3 \/ v = 4 \/ v = 5 \/ v = 6 \/ v = 7)
      as Hc by lia.
    repeat (destruct Hc as [->|Hc]; [discriminate H|]). subst. discriminate H.
Qed.

Lemma members_lookup (m : string * Z) :
  In m Symbol.members ->
  Symbol.of_name (lit (fst m)) = Symbol.of_value (snd m).
Proof.
  assert (forallb (fun m =>
            match Symbol.of_name (lit (fst m)), Symbol.of_value (snd m) with
            | Ok x, Ok y => Z.eqb (Symbol.value x) (Symbol.value y)
            | _, _ => false
            end) Symbol.members = true) as H by (vm_compute; reflexivity).
  intros Hm. apply (proj1 (forallb_forall _ _) H) in Hm.
  destruct (Symbol.of_name _) as [x|], (Symbol.of_value _) as [y|];
    try discriminate.
  apply Z.eqb_eq in Hm. f_equal. destruct x, y; try reflexivity; discriminate.
Qed.

End TableFacts.

(** X1. Lookup by value is the inverse of [value]: it gives back the symbol
    of a value, a symbol it gives has the value asked for, and it raises,
    with [ValueError], exactly outside 1..7. *)
Theorem symbol_of_value_spec (v : Z) (x : SolfegeSymbol) :
  Symbol.of_value (Symbol.value x) = Ok x
  /\ match Symbol.of_value v with
     | Ok y => Symbol.value y = v
     | Raise e => e = ValueError /\ ~ (1 <= v <= 7)
     end.
Proof.
  split; [apply TableFacts.of_value_value|].
  destruct (Symbol.of_value v) as [y|e] eqn:E.
  - now apply TableFacts.of_value_inv.
  - now apply TableFacts.of_value_raises.
Qed.

(** X2. Lookup by name succeeds exactly on the names of the enumeration,
    with the symbol of the value the name is declared with, and raises
    [KeyError] on every other string. *)
Theorem symbol_of_name_spec (nm : str) :
  match Symbol.of_name nm with
  | Ok x => exists m, In m Symbol.members /\ Py.lit (fst m) = nm
                      /\ snd m = Symbol.value x
  | Raise e => e = KeyError /\ ~ In nm Symbol.aliases
  end.
Proof.
  destruct (Symbol.of_name nm) as [x|e] eqn:E.
  - unfold Symbol.of_name in E.
    destruct (find _ Symbol.members) as [m|] eqn:Ef; [|discriminate].
    apply find_some in Ef as [Hm Heq]. apply FullFacts.eqb_str_eq in Heq.
    exists m. repeat split; try assumption.
    symmetry. now apply TableFacts.of_value_inv.
  - assert (~ In nm Symbol.aliases) as Hn.
    { intros Hin. destruct (FullFacts.of_name_alias _ Hin) as (x & Ex).
      congruence. }
    split; [|exact Hn].
    rewrite (FullFacts.of_name_unknown _ Hn) in E. congruence.
Qed.

(** X3. Every name of the enumeration, member or alias, looks up the symbol
    of the value it is declared with. *)
Theorem symbol_alias_lookup (m : string * Z) :
  In m Symbol.members ->
  Symbol.of_name (Py.lit (fst m)) = Symbol.of_value (snd m).
Proof. apply TableFacts.members_lookup. Qed.

Lemma symbol_alias_lookup_witness :
  In ("Ti"%string, 7) Symbol.members
  /\ Symbol.of_name (Py.lit (fst ("Ti"%string, 7)))
     = Symbol.of_value (snd ("Ti"%string, 7)).
Proof.
  assert (In ("Ti"%string, 7) Symbol.members) as H.
  { unfold Symbol.members. do 44 right. left. reflexivity. }
  split; [exact H | apply (symbol_alias_lookup _ H)].
Defined.

(** X4. The member name, the short name and the ses consonant of a symbol
    each look up that symbol. *)
Theorem symbol_names_roundtrip (x : SolfegeSymbol) :
  Symbol.of_name (Symbol.name x) = Ok x
  /\ Symbol.of_name (Symbol.shortname x) = Ok x
  /\ Symbol.of_name (Symbol.sescons x) = Ok x.
Proof. destruct x; repeat split; vm_compute; reflexivity. Qed.

(** X5. The ses vowel of a symbol looks up that symbol except for LA and
    SI: the vowel of LA is an alias of SI and the vowel of SI an alias of
    LA. *)
Theorem symbol_vowel_lookup (x : SolfegeSymbol) :
  Symbol.of_name (Symbol.sesvowel x) = Ok (vowel_alias x).
Proof. destruct x; vm_compute; reflexivity. Qed.

(** ** Words from lists, digits and integers *)

Module DigitFacts.
Import Py PyFacts WordFacts.

Lemma mapM_Ok_all {A B : Type} (f : A -> result B) (l : list A) :
  (forall a, In a l -> exists b, f a = Ok b) -> exists bs, mapM f l = Ok bs.
Proof.
  induction l as [|a t IH]; intros H; simpl; [eauto|].
  destruct (H a (or_introl eq_refl)) as (b & ->).
  destruct IH as (bs & ->); [intros; apply H; now right|].
  simpl; eauto.
Qed.

(** A character is read as a symbol exactly when it is one of "1" to "7",
    and then it is the digit of that symbol. *)
Lemma of_digit_cases (c : ascii) :
  (In c symbol_digits
   /\ exists x, Symbol.of_digit c = Ok x /\ digit_char (Symbol.value x) = c)
  \/ (~ In c symbol_digits /\ Symbol.of_digit c = Raise ValueError).
Proof.
  destruct c as [[|] [|] [|] [|] [|] [|] [|] [|]];
    first [ right; split; [|reflexivity];
            intros H; repeat (destruct H as [H|H]; [discriminate H|]); exact H
          | left; split; [simpl; tauto|]; eexists; split; reflexivity ].
Qed.

Lemma of_digit_Ok (c : ascii) (x : SolfegeSymbol) :
  Symbol.of_digit c = Ok x ->
  In c symbol_digits /\ digit_char (Symbol.value x) = c.
Proof.
  intros E. destruct (of_digit_cases c) as [(Hin & y & Ey & Hy)|[_ Er]];
    [|congruence].
  split; [exact Hin|]. congruence.
Qed.

(** The symbols read from a string have that string as their digits. *)
Lemma digits_of_decoded (s : str) (l : list SolfegeSymbol) :
  mapM Symbol.of_digit s = Ok l ->
  word_digits (MkWord l) = s /\ Forall (fun c => In c symbol_digits) s.
Proof.
  rewrite word_digits_map. revert l.
  induction s as [|c s IH]; simpl; intros l H.
  - inversion H. now split.
  - apply bind_Ok_inv in H as (x & Ex & H).
    apply bind_Ok_inv in H as (l' & El & H). inversion H; subst.
    destruct (of_digit_Ok _ _ Ex) as [Hin Hc].
    destruct (IH _ El) as [Hd Hall]. simpl. split; [congruence|].
    now constructor.
Qed.

Lemma decoded_or_raises (s : str) :
  (Forall (fun c => In c symbol_digits) s
   /\ exists l, mapM Symbol.of_digit s = Ok l /\ word_digits (MkWord l) = s)
  \/ (~ Forall (fun c => In c symbol_digits) s
      /\ mapM Symbol.of_digit s = Raise ValueError).
Proof.
  destruct (mapM Symbol.of_digit s) as [l|e] eqn:E.
  - left. destruct (digits_of_decoded _ _ E). eauto.
  - right.
    assert (~ Forall (fun c => In c symbol_digits) s) as Hn.
    { intros Hall.
      destruct (mapM_Ok_all Symbol.of_digit s) as (bs & Ebs); [|congruence].
      intros c Hc. rewrite Forall_forall in Hall.
      destruct (of_digit_cases c) as [(_ & x & Ex & _)|[Hno _]];
        [eauto | now elim Hno; apply Hall]. }
    split; [exact Hn|]. f_equal.
    assert (exists c, In c s /\ Symbol.of_digit c = Raise ValueError)
      as Hex.
    { apply Exists_exists. apply neg_Forall_Exists_neg in Hn.
      - eapply Exists_impl; [|exact Hn]. intros c Hc.
        destruct (of_digit_cases c) as [[Hin _]|[_ Er]]; [easy | exact Er].
      - intros c. apply in_dec, ascii_dec. }
    rewrite (mapM_raises Symbol.of_digit ValueError) in E;
      [congruence | apply of_digit_raises | exact Hex].
Qed.

(** Stripping, seen from both ends. *)
Lemma strip_both (chars d : str) (c : ascii) (j k : nat) :
  (forall x, In x d -> mem_char x chars = false) ->
  mem_char c chars = true ->
  strip chars (repeat c j ++ d ++ repeat c k) = d.
Proof.
  intros Hd Hc. unfold strip. rewrite lstrip_repeat by assumption.
  now apply strip_padded.
Qed.

Lemma lstrip_snoc (chars s : str) (c : ascii) :
  mem_char c chars = true ->
  lstrip chars (s ++ [c])
  = match lstrip chars s with
    | [] => []
    | t => t ++ [c]
    end.
Proof.
  intros Hc. induction s as [|a s IH]; simpl; [now rewrite Hc|].
  destruct (mem_char a chars); [exact IH | reflexivity].
Qed.

Lemma strip_snoc (chars s : str) (c : ascii) :
  mem_char c chars = true -> strip chars (s ++ [c]) = strip chars s.
Proof.
  intros Hc. unfold strip. rewrite lstrip_snoc by assumption.
  destruct (lstrip chars s) as [|a t]; [reflexivity|].
  unfold rstrip. rewrite rev_app_distr. simpl. now rewrite Hc.
Qed.

(** What stripping takes off the right end are zeros. *)
Lemma lstrip_zeros (s : str) :
  exists k, s = repeat "0"%char k ++ lstrip (lit "0") s.
Proof.
  induction s as [|a s (k & IH)]; [now exists 0%nat|]. cbn [lstrip].
  destruct (mem_char a (lit "0")) eqn:Ea; [|now exists 0%nat].
  apply NumFacts.mem_zero in Ea as <-. exists (S k).
  cbn [repeat app]. now f_equal.
Qed.

Lemma rstrip_zeros (s : str) :
  exists k, s = rstrip (lit "0") s ++ repeat "0"%char k.
Proof.
  unfold rstrip. destruct (lstrip_zeros (rev s)) as (k & E). exists k.
  rewrite <- (rev_involutive s) at 1. rewrite E at 1.
  now rewrite rev_app_distr, rev_repeat.
Qed.

(** The rendering of a positive number does not begin with a zero. *)
Lemma render_hd (b n : Z) :
  2 <= b <= 10 -> 0 < n -> hd "0"%char (render b n) <> "0"%char.
Proof.
  intros Hb Hn. assert (0 <= n) as Hn0 by lia. revert Hn.
  pattern n. apply Z_lt_induction; [|exact Hn0]. clear n Hn0.
  intros n IH Hn. rewrite render_step by lia.
  destruct (Z.eqb_spec (n / b) 0) as [Eq|Eq].
  - simpl. intros Hc.
    assert (n mod b = n) as Em.
    { pose proof (Z.div_mod n b ltac:(lia)) as E.
      rewrite Eq, Z.mul_0_r, Z.add_0_l in E. now symmetry. }
    assert (0 <= n mod b < b) as Hm by (apply Z.mod_pos_bound; lia).
    assert (char_digit (digit_char (n mod b)) = Some (n mod b)) as Hd
      by (apply digit_char_inv; lia).
    rewrite Hc in Hd. change (char_digit "0") with (Some 0) in Hd.
    assert (n mod b = 0) by congruence. lia.
  - assert (0 < n / b) by (pose proof (Z.div_pos n b); lia).
    assert (n / b < n) by (apply Z.div_lt; lia).
    specialize (IH (n / b) ltac:(lia) ltac:(lia)).
    destruct (render b (n / b)); [now elim IH | exact IH].
Qed.

(** Reading digits after an accumulated value shifts that value. *)
Lemma int_digits_shift (b : Z) (s : str) (a1 a2 v : Z) :
  int_digits b s a1 = Ok v ->
  int_digits b s a2 = Ok (v + (a2 - a1) * b ^ Z.of_nat (length s)).
Proof.
  revert a1 a2 v. induction s as [|c s IH]; intros a1 a2 v; simpl length.
  - simpl. intros H; inversion H. f_equal. simpl. lia.
  - cbn [int_digits]. destruct (char_digit c) as [d|]; [|discriminate].
    destruct (d <? b); [|discriminate]. intros H.
    rewrite (IH _ (a2 * b + d) _ H). apply f_equal.
    rewrite Nat2Z.inj_succ, Z.pow_succ_r by lia. ring.
Qed.

Lemma int_digits_zeros (b : Z) (k : nat) (a : Z) :
  0 < b -> int_digits b (repeat "0"%char k) a = Ok (a * b ^ Z.of_nat k).
Proof.
  intros Hb. revert a. induction k as [|k IH]; intros a.
  - simpl. f_equal. lia.
  - cbn [repeat int_digits]. change (char_digit "0") with (Some 0).
    cbv beta iota. destruct (Z.ltb_spec 0 b); [|lia]. rewrite IH. apply f_equal.
    rewrite Nat2Z.inj_succ, Z.pow_succ_r by lia. ring.
Qed.

(** A word that has a value has symbols. *)
Lemma value_not_empty (w : SolresolWord) (v : Z) :
  Word.value w = Ok v -> word w <> [].
Proof. destruct w as [[|x l]]; [discriminate | easy]. Qed.

Lemma value_decodes (w : SolresolWord) (v : Z) :
  Word.value w = Ok v -> Word.of_int v = Ok w.
Proof.
  intros Ev.
  destruct (word_value_render w (value_not_empty _ _ Ev)) as (v' & Ev' & Hv & Er).
  assert (v' = v) as -> by congruence.
  apply of_int_padded with (k := 0%nat); [lia | now rewrite app_nil_r].
Qed.

Lemma lstrip_keeps (chars s : str) (x : ascii) :
  In x s -> mem_char x chars = false -> In x (lstrip chars s).
Proof.
  intros Hin Hx. induction s as [|a s IH]; [easy|]. cbn [lstrip].
  destruct (mem_char a chars) eqn:Ea; [|exact Hin].
  destruct Hin as [->|Hin]; [congruence | now apply IH].
Qed.

Lemma strip_keeps (chars s : str) (x : ascii) :
  In x s -> mem_char x chars = false -> In x (strip chars s).
Proof.
  intros Hin Hx. unfold strip, rstrip. apply -> in_rev.
  apply lstrip_keeps; [|exact Hx]. apply -> in_rev.
  now apply lstrip_keeps.
Qed.

Lemma lstrip_incl (chars s : str) (x : ascii) :
  In x (lstrip chars s) -> In x s.
Proof.
  induction s as [|a s IH]; [easy|]. cbn [lstrip].
  destruct (mem_char a chars); [right; now apply IH | easy].
Qed.

Lemma strip_incl (chars s : str) (x : ascii) :
  In x (strip chars s) -> In x s.
Proof.
  unfold strip, rstrip. intros H%in_rev%lstrip_incl%in_rev.
  now apply lstrip_incl in H.
Qed.

Lemma lstrip_hd_keep (s : str) :
  hd "0"%char s <> "0"%char -> lstrip (lit "0") s = s.
Proof.
  destruct s as [|a s]; [reflexivity|]. cbn [hd lstrip]. intros Ha.
  destruct (mem_char a (lit "0")) eqn:Ea; [|reflexivity].
  apply NumFacts.mem_zero in Ea. now elim Ha.
Qed.

(** An octal digit other than "0" names a symbol. *)
Lemma octal_digit_symbol (c : ascii) :
  digits_below 8 [c] = true -> c <> "0"%char -> In c symbol_digits.
Proof.
  intros (d & Ec & Hd & <-)%digits_below_single Hc.
  assert (d = 0 \/ d = 1 \/ d = 2 \/ d = 3 \/ d = 4 \/ d = 5 \/ d = 6 \/ d = 7)
    as Hcase by lia.
  destruct Hcase as [->|Hcase]; [now elim Hc|].
  repeat (destruct Hcase as [->|Hcase]; [simpl; tauto|]). subst. simpl; tauto.
Qed.

Lemma digits_below_In (b : Z) (s : str) (c : ascii) :
  digits_below b s = true -> In c s -> digits_below b [c] = true.
Proof.
  unfold digits_below. intros H Hc.
  rewrite forallb_forall in H. simpl. now rewrite (H c Hc).
Qed.

End DigitFacts.

(** X6. A word is built back from the values of its symbols: for every
    word [w] with at least one symbol, the list constructor applied to the
    list of the values of [w] gives [w]. *)
Theorem word_of_ints_roundtrip (w : SolresolWord) :
  word w <> [] -> Word.of_ints (map Symbol.value (word w)) = Ok w.
Proof.
  destruct w as [l]; cbn [word]. intros Hl.
  assert (mapM Symbol.of_value (map Symbol.value l) = Ok l) as E.
  { rewrite PhraseFacts.mapM_map, (mapM_Ok_map _ (fun x => x)), map_id;
      [reflexivity | intros; apply TableFacts.of_value_value]. }
  unfold Word.of_ints. rewrite E. destruct l; [easy | reflexivity].
Qed.

Lemma word_of_ints_roundtrip_witness :
  word (MkWord [SI; DO; LA]) <> []
  /\ Word.of_ints (map Symbol.value (word (MkWord [SI; DO; LA])))
     = Ok (MkWord [SI; DO; LA]).
Proof.
  split; [discriminate|].
  apply (word_of_ints_roundtrip (MkWord [SI; DO; LA])). discriminate.
Defined.

(** X7. The list constructor raises [ValueError] on a list of integers one
    of which is outside 1..7. *)
Theorem word_of_ints_out_of_range (l : list Z) :
  (exists v, In v l /\ ~ (1 <= v <= 7)) ->
  Word.of_ints l = Raise ValueError.
Proof.
  intros (v & Hin & Hv).
  assert (mapM Symbol.of_value l = Raise ValueError) as E.
  { apply mapM_raises.
    - intros a e H. now apply TableFacts.of_value_raises in H.
    - exists v. split; [exact Hin|].
      destruct (Symbol.of_value v) as [y|e] eqn:E.
      + apply TableFacts.of_value_inv in E. destruct y; simpl in E; lia.
      + now apply TableFacts.of_value_raises in E as [-> _]. }
  unfold Word.of_ints. rewrite E. destruct l; [easy | reflexivity].
Qed.

Lemma word_of_ints_out_of_range_witness :
  (exists v, In v [1; 8; 2] /\ ~ (1 <= v <= 7))
  /\ Word.of_ints [1; 8; 2] = Raise ValueError.
Proof.
  assert (exists v, In v [1; 8; 2] /\ ~ (1 <= v <= 7)) as H.
  { exists 8. split; [simpl; tauto | lia]. }
  split; [exact H | apply (word_of_ints_out_of_range [1; 8; 2] H)].
Defined.

(** X8. A word is built back from the member names of its symbols, the
    names that [repr] prints. *)
Theorem word_of_names_roundtrip (w : SolresolWord) :
  word w <> [] -> Word.of_names (map Symbol.name (word w)) = Ok w.
Proof.
  destruct w as [l]; cbn [word]. intros Hl.
  assert (mapM Symbol.of_name (map Symbol.name l) = Ok l) as E.
  { rewrite PhraseFacts.mapM_map, (mapM_Ok_map _ (fun x => x)), map_id;
      [reflexivity | intros x _; destruct x; reflexivity]. }
  unfold Word.of_names. rewrite E. destruct l; [easy | reflexivity].
Qed.

Lemma word_of_names_roundtrip_witness :
  word (MkWord [SOL; LA]) <> []
  /\ Word.of_names (map Symbol.name (word (MkWord [SOL; LA])))
     = Ok (MkWord [SOL; LA]).
Proof.
  split; [discriminate|].
  apply (word_of_names_roundtrip (MkWord [SOL; LA])). discriminate.
Defined.

(** X9. The list constructor raises [KeyError] on a list of names one of
    which is not a name of the enumeration. *)
Theorem word_of_names_unknown (l : list str) :
  (exists nm, In nm l /\ ~ In nm Symbol.aliases) ->
  Word.of_names l = Raise KeyError.
Proof.
  intros (nm & Hin & Hnm).
  assert (mapM Symbol.of_name l = Raise KeyError) as E.
  { apply mapM_raises.
    - intros a e H.
      destruct (in_dec (list_eq_dec ascii_dec) a Symbol.aliases) as [Ha|Ha].
      + destruct (FullFacts.of_name_alias _ Ha); congruence.
      + rewrite (FullFacts.of_name_unknown _ Ha) in H. congruence.
    - exists nm. split; [exact Hin | now apply FullFacts.of_name_unknown]. }
  unfold Word.of_names. rewrite E. destruct l; [easy | reflexivity].
Qed.

Lemma word_of_names_unknown_witness :
  (exists nm, In nm [Py.lit "do"; Py.lit "dO"] /\ ~ In nm Symbol.aliases)
  /\ Word.of_names [Py.lit "do"; Py.lit "dO"] = Raise KeyError.
Proof.
  assert (exists nm, In nm [Py.lit "do"; Py.lit "dO"]
                     /\ ~ In nm Symbol.aliases) as H.
  { exists (Py.lit "dO"). split; [simpl; tauto|].
    intros Hin. destruct (FullFacts.of_name_alias _ Hin) as (x & Ex).
    discriminate Ex. }
  split; [exact H | apply (word_of_names_unknown _ H)].
Defined.


(** X11. Numeric syntax ignores zeros on either side: the digit string of a
    word with any number of zeros before and after it is read as that
    word. *)
Theorem word_of_num_padded (w : SolresolWord) (j k : nat) :
  Word.of_num (repeat "0"%char j ++ word_digits w ++ repeat "0"%char k) = Ok w.
Proof.
  unfold Word.of_num.
  rewrite DigitFacts.strip_both, WordFacts.of_digit_digits;
    [now destruct w | apply WordFacts.word_digits_nonzero | reflexivity].
Qed.

(** X12. The integer constructor of a word raises [ValueError] on every
    negative integer. *)
Theorem word_of_int_negative (n : Z) :
  n < 0 -> Word.of_int n = Raise ValueError.
Proof.
  intros Hn. unfold Word.of_int.
  rewrite (mapM_raises Symbol.of_digit ValueError); [reflexivity | |].
  - apply WordFacts.of_digit_raises.
  - exists "o"%char. split; [|reflexivity].
    apply DigitFacts.strip_keeps; [|reflexivity].
    unfold Py.oct. destruct (Z.ltb_spec n 0); [now left | lia].
Qed.

Lemma word_of_int_negative_witness :
  -8 < 0 /\ Word.of_int (-8) = Raise ValueError.
Proof. split; [lia | apply (word_of_int_negative (-8)); lia]. Defined.

(** X13. The integer constructor of a word does not see a zero digit at
    the end: [n] and [8 * n] build the same word, or raise alike. *)
Theorem word_of_int_times_eight (n : Z) :
  0 <= n -> Word.of_int (8 * n) = Word.of_int n.
Proof.
  intros Hn. destruct (Z.eq_dec n 0) as [->|Hnz]; [reflexivity|].
  unfold Word.of_int. rewrite !WordFacts.oct_nonneg by lia.
  rewrite (PyFacts.render_step 8 (8 * n)) by lia.
  replace (8 * n / 8) with n by (rewrite Z.mul_comm, Z.div_mul; lia).
  replace (8 * n mod 8) with 0 by (rewrite Z.mul_comm, Z.mod_mul; lia).
  destruct (Z.eqb_spec n 0); [lia|].
  now rewrite DigitFacts.strip_snoc.
Qed.

Lemma word_of_int_times_eight_witness :
  0 <= 15 /\ Word.of_int (8 * 15) = Word.of_int 15.
Proof. split; [lia | apply (word_of_int_times_eight 15); lia]. Defined.

(** X14. The integer constructor of a word builds a word from every
    non-negative integer whose rendering in base 8, stripped of the zeros
    at both ends, holds no digit 0; the digit string of that word is the
    stripped rendering. *)
Theorem word_of_int_accepts (n : Z) :
  0 <= n ->
  ~ In "0"%char (Py.strip (Py.lit "0") (Py.render 8 n)) ->
  exists w, Word.of_int n = Ok w
            /\ word_digits w = Py.strip (Py.lit "0") (Py.render 8 n).
Proof.
  intros Hn Hz. unfold Word.of_int. rewrite WordFacts.oct_nonneg by lia.
  destruct (DigitFacts.decoded_or_raises (Py.strip (Py.lit "0") (Py.render 8 n)))
    as [(_ & l & -> & Hd)|(Hno & _)]; [now exists (MkWord l)|].
  elim Hno. apply Forall_forall. intros c Hc.
  destruct (PyFacts.int_render 8 n) as (_ & Hb & _); [lia | lia |].
  apply DigitFacts.octal_digit_symbol.
  - eapply DigitFacts.digits_below_In; [exact Hb|].
    now apply DigitFacts.strip_incl in Hc.
  - intros ->. now apply Hz.
Qed.

Lemma word_of_int_accepts_witness :
  0 <= 5312
  /\ ~ In "0"%char (Py.strip (Py.lit "0") (Py.render 8 5312))
  /\ exists w, Word.of_int 5312 = Ok w
               /\ word_digits w = Py.strip (Py.lit "0") (Py.render 8 5312).
Proof.
  assert (~ In "0"%char (Py.strip (Py.lit "0") (Py.render 8 5312))) as H.
  { vm_compute. intros [H|[H|[H|[]]]]; discriminate H. }
  split; [lia|]. split; [exact H|].
  apply (word_of_int_accepts 5312); [lia | exact H].
Defined.

(** X15. A word built from a positive integer [n] has a value [v], and [n]
    is [v] followed by zero digits: [n = v * 8 ^ k] for some [k]. *)
Theorem word_of_int_value (n : Z) (w : SolresolWord) :
  0 < n -> Word.of_int n = Ok w ->
  exists v k, Word.value w = Ok v /\ n = v * 8 ^ Z.of_nat k.
Proof.
  intros Hn Hw. unfold Word.of_int in Hw.
  rewrite WordFacts.oct_nonneg in Hw by lia.
  apply bind_Ok_inv in Hw as (l & Hl & Hw). inversion Hw; subst w; clear Hw.
  apply DigitFacts.digits_of_decoded in Hl as [Hd _].
  pose proof (DigitFacts.render_hd 8 n ltac:(lia) Hn) as Hhd.
  destruct (PyFacts.int_render 8 n) as (Hne & _ & Hint); [lia | lia |].
  unfold Py.strip in Hd. rewrite DigitFacts.lstrip_hd_keep in Hd by exact Hhd.
  destruct (DigitFacts.rstrip_zeros (Py.render 8 n)) as (k & Hr).
  rewrite <- Hd in Hr. rewrite Hr in Hint, Hhd, Hne.
  rewrite PyFacts.int_digits_app in Hint.
  apply bind_Ok_inv in Hint as (v & Ev & Hz).
  rewrite DigitFacts.int_digits_zeros in Hz by lia.
  exists v, k. split; [|congruence].
  unfold Word.value. fold (word_digits (MkWord l)).
  destruct (word_digits (MkWord l)) as [|c t]; [|exact Ev].
  destruct k; [now elim Hne | now elim Hhd].
Qed.

Lemma word_of_int_value_witness :
  0 < 5312 /\ Word.of_int 5312 = Ok (MkWord [DO; RE; MI])
  /\ exists v k, Word.value (MkWord [DO; RE; MI]) = Ok v
                 /\ 5312 = v * 8 ^ Z.of_nat k.
Proof.
  split; [lia|]. split; [reflexivity|].
  apply (word_of_int_value 5312 (MkWord [DO; RE; MI])); [lia | reflexivity].
Defined.

(** X16. The value of a word determines the word. *)
Theorem word_value_injective (w1 w2 : SolresolWord) (v : Z) :
  Word.value w1 = Ok v -> Word.value w2 = Ok v -> w1 = w2.
Proof.
  intros H1%DigitFacts.value_decodes H2%DigitFacts.value_decodes. congruence.
Qed.

Lemma word_value_injective_witness :
  Word.value (MkWord [DO; SI]) = Ok 15 /\ Word.value (MkWord [DO; SI]) = Ok 15
  /\ MkWord [DO; SI] = MkWord [DO; SI].
Proof.
  split; [reflexivity|]. split; [reflexivity|].
  apply (word_value_injective (MkWord [DO; SI]) (MkWord [DO; SI]) 15);
    reflexivity.
Defined.

(** ** Spellings and packed values *)

Module PackFacts.
Import Py PyFacts WordFacts PhraseFacts.

Lemma fulltext_decodes (w : SolresolWord) :
  Word.of_full (Word.fulltext w) = Some (Ok w).
Proof.
  destruct w as [ws]. unfold Word.of_full.
  now rewrite SpellFacts.full_loop_fulltext.
Qed.

Lemma ses_decodes_word (w : SolresolWord) :
  Word.of_ses (Word.ses w) = Ok w.
Proof.
  unfold Word.of_ses.
  rewrite SesFacts.ses_alternate_form, SesFacts.ses_decodes. now destruct w.
Qed.

Lemma mapM_app {A B : Type} (f : A -> result B) (l1 l2 : list A) :
  mapM f (l1 ++ l2)
  = (bs1 <- mapM f l1 ;; bs2 <- mapM f l2 ;; Ok (bs1 ++ bs2)).
Proof.
  induction l1 as [|a l1 IH]; simpl.
  - destruct (mapM f l2); reflexivity.
  - destruct (f a) as [b|e]; simpl; [|reflexivity]. rewrite IH.
    destruct (mapM f l1) as [bs1|e]; simpl; [|reflexivity].
    destruct (mapM f l2); reflexivity.
Qed.

Lemma mapM_In {A B : Type} (f : A -> result B) (l : list A) (bs : list B) :
  mapM f l = Ok bs -> forall b, In b bs -> exists a, In a l /\ f a = Ok b.
Proof.
  revert bs. induction l as [|a l IH]; simpl; intros bs H b Hb.
  - inversion H; subst. easy.
  - apply bind_Ok_inv in H as (b0 & E0 & H).
    apply bind_Ok_inv in H as (bs' & E' & H). inversion H; subst.
    destruct Hb as [<-|Hb]; [eauto|].
    destruct (IH _ E' _ Hb) as (a' & ? & ?). eauto.
Qed.

(** The block that [value] writes for the number of a word. *)
Lemma number_block (w : SolresolWord) (v : Z) :
  Word.value w = Ok v ->
  0 < v /\ ljust 5 "0"%char (skipn 2 (oct v)) = word_block w.
Proof.
  intros Ev.
  destruct (word_value_render w (DigitFacts.value_not_empty _ _ Ev))
    as (v' & Ev' & Hv & Er).
  assert (v' = v) as -> by congruence. split; [exact Hv|].
  rewrite oct_nonneg, Er by lia. reflexivity.
Qed.

(** What a block is worth: the value of the word followed by the zeros of
    the padding. *)
Lemma block_value (w : SolresolWord) (v : Z) :
  Word.value w = Ok v ->
  int_digits 8 (word_block w) 0
  = Ok (v * 8 ^ Z.of_nat (5 - length (word w)))
  /\ length (word_block w) = Nat.max 5 (length (word w)).
Proof.
  intros Ev. pose proof (DigitFacts.value_not_empty _ _ Ev) as Hne.
  unfold word_block, ljust. split.
  - rewrite int_digits_app, word_digits_length.
    unfold Word.value in Ev. fold (word_digits w) in Ev.
    assert (int_digits 8 (word_digits w) 0 = Ok v) as ->.
    { destruct (word_digits w); [discriminate | exact Ev]. }
    simpl bind. now rewrite DigitFacts.int_digits_zeros.
  - rewrite length_app, repeat_length, word_digits_length. lia.
Qed.

Lemma value_unfold (ws : list SolresolWord) (V : Z) :
  Phrase.value (MkPhrase ws) = Ok V ->
  exists ns, mapM Word.value ws = Ok ns
             /\ int_base 8 (concat (map word_block ws)) = Ok V.
Proof.
  unfold Phrase.value, Phrase.numlist. cbn [words].
  intros (ns & En & H)%bind_Ok_inv. exists ns. split; [exact En|].
  replace (concat (map word_block ws))
    with (join (map (fun num => ljust 5 "0"%char (skipn 2 (oct num))) ns));
    [exact H|].
  unfold join. f_equal. clear H. revert ns En.
  induction ws as [|w ws IH]; simpl; intros ns En.
  - now inversion En.
  - apply bind_Ok_inv in En as (v & Ev & En).
    apply bind_Ok_inv in En as (ns' & En' & En). inversion En; subst.
    simpl. f_equal; [now apply number_block | now apply IH].
Qed.

Lemma value_fold (ws : list SolresolWord) (ns : list Z) :
  mapM Word.value ws = Ok ns ->
  Phrase.value (MkPhrase ws) = int_base 8 (concat (map word_block ws)).
Proof.
  intros En. unfold Phrase.value, Phrase.numlist. cbn [words].
  rewrite En. cbn [bind]. unfold join. f_equal. f_equal.
  revert ns En. induction ws as [|w ws IH]; simpl; intros ns En.
  - now inversion En.
  - apply bind_Ok_inv in En as (v & Ev & En).
    apply bind_Ok_inv in En as (ns' & En' & En). inversion En; subst.
    simpl. f_equal; [now apply number_block | now apply IH].
Qed.

(** The phrase built from the value of a phrase, as in the round trip. *)
Lemma phrase_decodes (p : Solresol) (v : Z) :
  (forall w, In w (words p) -> (1 <= length (word w) <= 5)%nat) ->
  Phrase.value p = Ok v -> Phrase.of_int v = Ok p.
Proof.
  intros Hlen Ev.
  assert (forall w, In w (words p) -> word w <> []) as Hw.
  { intros w Hin E. specialize (Hlen w Hin). rewrite E in Hlen.
    simpl in Hlen. lia. }
  assert (words p <> []) as Hne.
  { destruct p as [[|w ws]]; [discriminate Ev | easy]. }
  destruct (phrase_value_render p Hne Hw) as (v' & Ev' & Hv & Er).
  assert (v' = v) as -> by congruence.
  rewrite of_int_reads_pieces, oct_nonneg, Er by lia.
  rewrite pieces_concat.
  - rewrite mapM_map, (mapM_Ok_map _ (fun w => w)).
    + simpl. rewrite map_id. now destruct p.
    + intros w Hin. now apply block_decodes, Hw.
  - intros b (w & <- & Hin)%in_map_iff.
    apply word_block_length. specialize (Hlen w Hin). lia.
Qed.

Lemma pieces_short (s b : str) : In b (pieces s) -> (length b <= 5)%nat.
Proof.
  unfold pieces, slice. intros (i & <- & _)%in_map_iff.
  rewrite length_firstn. lia.
Qed.

Lemma lstrip_length (chars s : str) : (length (lstrip chars s) <= length s)%nat.
Proof.
  induction s as [|a s IH]; simpl; [lia|].
  destruct (mem_char a chars); simpl; lia.
Qed.

Lemma strip_length (chars s : str) : (length (strip chars s) <= length s)%nat.
Proof.
  unfold strip, rstrip. rewrite length_rev.
  pose proof (lstrip_length chars (rev (lstrip chars s))) as H.
  rewrite length_rev in H. pose proof (lstrip_length chars s). lia.
Qed.

Lemma int_digits_below (b : Z) (s : str) (a v : Z) :
  int_digits b s a = Ok v -> digits_below b s = true.
Proof.
  revert a. induction s as [|c s IH]; intros a; [reflexivity|].
  unfold digits_below. cbn [int_digits forallb].
  destruct (char_digit c) as [d|]; [|discriminate].
  destruct (d <? b); [|discriminate]. intros H. exact (IH _ H).
Qed.

(** Reading a piece and rendering what was read gives no more characters
    than the piece has. *)
Lemma render_read_length (s : str) (v : Z) :
  int_base 8 s = Ok v -> 0 <= v /\ (length (render 8 v) <= length s)%nat.
Proof.
  intros Ev. assert (s <> []) as Hne by (destruct s; [discriminate | easy]).
  assert (int_digits 8 s 0 = Ok v) as Ed by (destruct s; [easy | exact Ev]).
  pose proof (int_digits_below _ _ _ _ Ed) as Hb.
  destruct (DigitFacts.lstrip_zeros s) as (j & Es).
  set (t := lstrip (lit "0") s) in *.
  rewrite Es, int_digits_app, DigitFacts.int_digits_zeros in Ed by lia.
  cbn [bind] in Ed. rewrite Z.mul_0_l in Ed.
  rewrite Es, digits_below_app in Hb. apply andb_true_iff in Hb as [_ Hb].
  destruct t as [|c t'] eqn:Et.
  - inversion Ed; subst v. split; [lia|].
    destruct s; [easy | simpl; lia].
  - assert (hd "0"%char (c :: t') <> "0"%char) as Hhd.
    { cbn [hd]. intros ->.
      now pose proof (NumFacts.lstrip_hd _ _ _ _ Et). }
    destruct (render_int 8 (c :: t') ltac:(lia) Hb Hhd) as (v' & Ev' & Hv & Er).
    change (int_base 8 (c :: t')) with (int_digits 8 (c :: t') 0) in Ev'.
    assert (v' = v) as -> by congruence. split; [lia|].
    rewrite Er, Es, length_app. lia.
Qed.

End PackFacts.

(** X17. The full spelling of a word determines the word. *)
Theorem word_fulltext_injective (w1 w2 : SolresolWord) :
  Word.fulltext w1 = Word.fulltext w2 -> w1 = w2.
Proof.
  intros H. pose proof (PackFacts.fulltext_decodes w1) as H1.
  rewrite H, PackFacts.fulltext_decodes in H1. congruence.
Qed.

Lemma word_fulltext_injective_witness :
  Word.fulltext (MkWord [SOL; LA]) = Word.fulltext (MkWord [SOL; LA])
  /\ MkWord [SOL; LA] = MkWord [SOL; LA].
Proof.
  split; [reflexivity|].
  apply (word_fulltext_injective (MkWord [SOL; LA]) (MkWord [SOL; LA])).
  reflexivity.
Defined.

(** X18. The ses form of a word determines the word, and the ses form of
    any word, also of one with no symbol, is read back as that word. *)
Theorem word_ses_injective (w1 w2 : SolresolWord) :
  Word.ses w1 = Word.ses w2 -> w1 = w2.
Proof.
  intros H. pose proof (PackFacts.ses_decodes_word w1) as H1.
  rewrite H, PackFacts.ses_decodes_word in H1. congruence.
Qed.

Lemma word_ses_injective_witness :
  Word.ses (MkWord [LA; SI]) = Word.ses (MkWord [LA; SI])
  /\ MkWord [LA; SI] = MkWord [LA; SI].
Proof.
  split; [reflexivity|].
  apply (word_ses_injective (MkWord [LA; SI]) (MkWord [LA; SI])).
  reflexivity.
Defined.

(** X19. The words of a phrase are built back from its list of numbers:
    when [numlist] returns, the integer constructor of a word applied to
    each number gives the words of the phrase in order. *)
Theorem phrase_numlist_decodes (p : Solresol) (ns : list Z) :
  Phrase.numlist p = Ok ns -> mapM Word.of_int ns = Ok (words p).
Proof.
  destruct p as [ws]. unfold Phrase.numlist. cbn [words]. revert ns.
  induction ws as [|w ws IH]; simpl; intros ns H.
  - now inversion H.
  - apply bind_Ok_inv in H as (v & Ev & H).
    apply bind_Ok_inv in H as (ns' & En & H). inversion H; subst.
    simpl. now rewrite (DigitFacts.value_decodes _ _ Ev), (IH _ En).
Qed.

Lemma phrase_numlist_decodes_witness :
  Phrase.numlist scenario3 = Ok [1; 63]
  /\ mapM Word.of_int [1; 63] = Ok (words scenario3).
Proof.
  split; [reflexivity|].
  apply (phrase_numlist_decodes scenario3 [1; 63]). reflexivity.
Defined.

(** X20. The value of a phrase of one word is the value of the word
    followed by the zeros that fill its block: [v * 8 ^ (5 - n)] for a
    word of [n] symbols, and [v] itself when [n] is five or more. *)
Theorem phrase_value_single (w : SolresolWord) (v : Z) :
  Word.value w = Ok v ->
  Phrase.value (MkPhrase [w]) = Ok (v * 8 ^ Z.of_nat (5 - length (word w))).
Proof.
  intros Ev. rewrite (PackFacts.value_fold [w] [v]) by (simpl; now rewrite Ev).
  simpl. rewrite app_nil_r.
  destruct (PackFacts.block_value w v Ev) as [Eb Hl].
  unfold Py.int_base. destruct (word_block w) eqn:E; [|exact Eb].
  cbn [length] in Hl. lia.
Qed.

Lemma phrase_value_single_witness :
  Word.value (MkWord [SI; SI]) = Ok 63
  /\ Phrase.value (MkPhrase [MkWord [SI; SI]])
     = Ok (63 * 8 ^ Z.of_nat (5 - length (word (MkWord [SI; SI])))).
Proof.
  split; [reflexivity|].
  apply (phrase_value_single (MkWord [SI; SI]) 63). reflexivity.
Defined.

(** X21. Adding a word at the end of a phrase shifts the value of the
    phrase by the digits of the block of the word, five or the number of
    its symbols if that is more, and adds what the block is worth. *)
Theorem phrase_value_snoc (p : Solresol) (w : SolresolWord) (V v : Z) :
  Phrase.value p = Ok V ->
  Word.value w = Ok v ->
  Phrase.value (MkPhrase (words p ++ [w]))
  = Ok (V * 8 ^ Z.of_nat (Nat.max 5 (length (word w)))
        + v * 8 ^ Z.of_nat (5 - length (word w))).
Proof.
  destruct p as [ws]. cbn [words]. intros EV Ev.
  destruct (PackFacts.value_unfold ws V EV) as (ns & En & Eb).
  rewrite (PackFacts.value_fold (ws ++ [w]) (ns ++ [v]))
    by (rewrite PackFacts.mapM_app, En; simpl; now rewrite Ev).
  rewrite map_app, concat_app. cbn [map concat]. rewrite app_nil_r.
  destruct (PackFacts.block_value w v Ev) as [Ew Hl].
  assert (Py.int_digits 8 (concat (map word_block ws)) 0 = Ok V) as Ed.
  { destruct (concat (map word_block ws)); [discriminate Eb | exact Eb]. }
  assert (Py.int_base 8 (concat (map word_block ws) ++ word_block w)
          = Py.int_digits 8 (concat (map word_block ws) ++ word_block w) 0)
    as -> by (destruct (concat (map word_block ws)); [discriminate Eb | easy]).
  rewrite PyFacts.int_digits_app, Ed. cbn [bind].
  rewrite (DigitFacts.int_digits_shift _ _ 0 V _ Ew), Hl.
  apply f_equal. ring.
Qed.

Lemma phrase_value_snoc_witness :
  Phrase.value (MkPhrase [MkWord [DO]]) = Ok 4096
  /\ Word.value (MkWord [SI; SI]) = Ok 63
  /\ Phrase.value (MkPhrase (words (MkPhrase [MkWord [DO]]) ++ [MkWord [SI; SI]]))
     = Ok (4096 * 8 ^ Z.of_nat (Nat.max 5 (length (word (MkWord [SI; SI]))))
           + 63 * 8 ^ Z.of_nat (5 - length (word (MkWord [SI; SI])))).
Proof.
  split; [reflexivity|]. split; [reflexivity|].
  apply (phrase_value_snoc (MkPhrase [MkWord [DO]]) (MkWord [SI; SI]) 4096 63);
    reflexivity.
Defined.

(** X22. The integer constructor of a phrase raises [ValueError] on every
    negative integer. *)
Theorem phrase_of_int_negative (n : Z) :
  n < 0 -> Phrase.of_int n = Raise ValueError.
Proof.
  intros Hn. rewrite PhraseFacts.of_int_reads_pieces.
  unfold Py.oct. destruct (Z.ltb_spec n 0); [|lia].
  change (skipn 2 (Py.lit "-0o" ++ Py.render 8 (- n)))
    with ("o"%char :: Py.render 8 (- n)).
  rewrite PyFacts.pieces_cons by easy. reflexivity.
Qed.

Lemma phrase_of_int_negative_witness :
  -42798 < 0 /\ Phrase.of_int (-42798) = Raise ValueError.
Proof. split; [lia | apply (phrase_of_int_negative (-42798)); lia]. Defined.

(** X23. Every word of a phrase built from an integer has at most five
    symbols. *)
Theorem phrase_of_int_words_short (n : Z) (p : Solresol) :
  Phrase.of_int n = Ok p ->
  forall w, In w (words p) -> (length (word w) <= 5)%nat.
Proof.
  rewrite PhraseFacts.of_int_reads_pieces.
  intros (ws & Ews & H)%bind_Ok_inv w Hw. inversion H; subst p; clear H.
  destruct (PackFacts.mapM_In _ _ _ Ews w Hw) as (piece & Hin & Ew).
  apply PackFacts.pieces_short in Hin.
  apply bind_Ok_inv in Ew as (v & Ev & Ew).
  destruct (PackFacts.render_read_length _ _ Ev) as [Hv Hlen].
  unfold Word.of_int in Ew. rewrite WordFacts.oct_nonneg in Ew by lia.
  apply bind_Ok_inv in Ew as (l & El & Ew). inversion Ew; subst w.
  apply mapM_length in El. cbn [word]. rewrite El.
  pose proof (PackFacts.strip_length (Py.lit "0") (Py.render 8 v)). lia.
Qed.

Lemma phrase_of_int_words_short_witness :
  Phrase.of_int 42798 = Ok six_symbols_left
  /\ forall w, In w (words six_symbols_left) -> (length (word w) <= 5)%nat.
Proof.
  split; [reflexivity|].
  apply (phrase_of_int_words_short 42798 six_symbols_left). reflexivity.
Defined.

(** X24. Among the phrases whose words have one to five symbols the value
    determines the phrase. *)
Theorem phrase_value_injective (p1 p2 : Solresol) (v : Z) :
  (forall w, In w (words p1) -> (1 <= length (word w) <= 5)%nat) ->
  (forall w, In w (words p2) -> (1 <= length (word w) <= 5)%nat) ->
  Phrase.value p1 = Ok v -> Phrase.value p2 = Ok v -> p1 = p2.
Proof.
  intros H1 H2 E1 E2.
  apply (PackFacts.phrase_decodes _ _ H1) in E1.
  apply (PackFacts.phrase_decodes _ _ H2) in E2. congruence.
Qed.

Lemma phrase_value_injective_witness :
  (forall w, In w (words scenario3) -> (1 <= length (word w) <= 5)%nat)
  /\ Phrase.value scenario3 = Ok 134249984
  /\ scenario3 = scenario3.
Proof.
  assert (forall w, In w (words scenario3) -> (1 <= length (word w) <= 5)%nat)
    as H.
  { intros w [<-|[<-|[]]]; simpl; lia. }
  split; [exact H|]. split; [reflexivity|].
  apply (phrase_value_injective scenario3 scenario3 134249984 H H);
    reflexivity.
Defined.

(** ** Phrases from text *)

Module TextFacts.
Import Py.

Lemma letter_plain (c : ascii) :
  is_lower_letter c = true ->
  isspace c = false /\ mem_char c Phrase.punctuation = false.
Proof.
  destruct c as [[|] [|] [|] [|] [|] [|] [|] [|]]; vm_compute;
    intros H; try discriminate H; split; reflexivity.
Qed.

Lemma fulltext_letters (w : SolresolWord) :
  forallb is_lower_letter (Word.fulltext w) = true.
Proof.
  destruct w as [l]. induction l as [|x l IH]; [reflexivity|].
  rewrite SpellFacts.fulltext_cons, SpellFacts.lower_name, forallb_app, IH.
  destruct x; reflexivity.
Qed.

Lemma ses_alternate_letters (even : bool) (l : list SolfegeSymbol) :
  forallb is_lower_letter (ses_alternate even l) = true.
Proof.
  revert even. induction l as [|x l IH]; intros even; [reflexivity|].
  cbn [ses_alternate]. rewrite forallb_app, IH.
  destruct even, x; reflexivity.
Qed.

Lemma ses_letters (w : SolresolWord) :
  forallb is_lower_letter (Word.ses w) = true.
Proof. rewrite SesFacts.ses_alternate_form. apply ses_alternate_letters. Qed.

Lemma fulltext_not_empty (w : SolresolWord) :
  word w <> [] -> Word.fulltext w <> [].
Proof.
  destruct w as [[|x l]]; [easy|]. intros _.
  rewrite SpellFacts.fulltext_cons, SpellFacts.lower_name.
  destruct x; discriminate.
Qed.

Lemma ses_not_empty (w : SolresolWord) : word w <> [] -> Word.ses w <> [].
Proof.
  destruct w as [[|x l]]; [easy|]. intros _.
  rewrite SesFacts.ses_alternate_form. cbn [word ses_alternate].
  destruct (negb _), x; discriminate.
Qed.

(** Splitting reads a run of characters that are not blanks as one piece
    of a word. *)
Lemma split_from_run (cur tok rest : str) :
  forallb is_lower_letter tok = true ->
  split_from cur (tok ++ rest) = split_from (cur ++ tok) rest.
Proof.
  revert cur. induction tok as [|c tok IH]; intros cur H.
  - now rewrite app_nil_r.
  - cbn [forallb] in H. apply andb_true_iff in H as [Hc H].
    destruct (letter_plain c Hc) as [Hs _].
    cbn [app split_from]. rewrite Hs, IH by exact H.
    now rewrite <- app_assoc.
Qed.

Lemma split_join (toks : list str) :
  (forall t, In t toks -> t <> [] /\ forallb is_lower_letter t = true) ->
  split (join_sep (lit " ") toks) = toks.
Proof.
  unfold split. induction toks as [|t toks IH]; intros H; [reflexivity|].
  destruct (H t (or_introl eq_refl)) as [Hne Hl].
  destruct toks as [|t2 toks].
  - cbn [join_sep]. pose proof (split_from_run [] t [] Hl) as E.
    rewrite app_nil_r in E. rewrite E.
    cbn [app split_from]. destruct t; [easy | reflexivity].
  - change (join_sep (lit " ") (t :: t2 :: toks))
      with (t ++ " "%char :: join_sep (lit " ") (t2 :: toks)).
    rewrite split_from_run by exact Hl. cbn [app split_from].
    change (isspace " ") with true. cbv iota.
    rewrite IH by (intros; apply H; now right).
    destruct t; [easy | reflexivity].
Qed.

Lemma delete_keep (chars s : str) :
  (forall c, In c s -> mem_char c chars = false) -> delete_chars chars s = s.
Proof.
  intros H. unfold delete_chars. induction s as [|c s IH]; [reflexivity|].
  cbn [filter]. rewrite (H c (or_introl eq_refl)). cbn [negb].
  f_equal. apply IH. intros; apply H; now right.
Qed.

Lemma join_sep_chars (toks : list str) (c : ascii) :
  In c (join_sep (lit " ") toks) ->
  c = " "%char \/ exists t, In t toks /\ In c t.
Proof.
  induction toks as [|t toks IH]; [easy|].
  destruct toks as [|t2 toks].
  - cbn [join_sep]. intros Hc. right. exists t. split; [now left | exact Hc].
  - change (join_sep (lit " ") (t :: t2 :: toks))
      with (t ++ " "%char :: join_sep (lit " ") (t2 :: toks)).
    intros [Hc|[Hc|Hc]]%in_app_or.
    + right. exists t. split; [now left | exact Hc].
    + now left.
    + destruct (IH Hc) as [->|(t' & Ht' & Hc')]; [now left|].
      right. exists t'. split; [now right | exact Hc'].
Qed.

(** A text of words spelled in letters and joined by blanks is split back
    into the spellings; nothing is deleted from it. *)
Lemma text_tokens (toks : list str) :
  (forall t, In t toks -> t <> [] /\ forallb is_lower_letter t = true) ->
  split (delete_chars Phrase.punctuation (join_sep (lit " ") toks)) = toks.
Proof.
  intros H. rewrite delete_keep; [now apply split_join|].
  intros c [->|(t & Ht & Hc)]%join_sep_chars; [reflexivity|].
  destruct (H t Ht) as [_ Hl]. rewrite forallb_forall in Hl.
  now destruct (letter_plain c (Hl c Hc)).
Qed.

Lemma map_words_Ok (f : str -> option (result SolresolWord))
      (g : SolresolWord -> str) (ws : list SolresolWord) :
  (forall w, In w ws -> f (g w) = Some (Ok w)) ->
  Phrase.map_words f (map g ws) = Some (Ok ws).
Proof.
  induction ws as [|w ws IH]; intros H; [reflexivity|].
  cbn [map Phrase.map_words]. rewrite (H w (or_introl eq_refl)).
  rewrite IH by (intros; apply H; now right). reflexivity.
Qed.

Lemma map_words_In (f : str -> option (result SolresolWord))
      (l : list str) (ws : list SolresolWord) :
  Phrase.map_words f l = Some (Ok ws) ->
  forall w, In w ws -> exists t, In t l /\ f t = Some (Ok w).
Proof.
  revert ws. induction l as [|t l IH]; cbn [Phrase.map_words]; intros ws H w Hw.
  - inversion H; subst. easy.
  - destruct (f t) as [[w0|e]|] eqn:Et; try discriminate.
    destruct (Phrase.map_words f l) as [[ws'|e]|]; try discriminate.
    inversion H; subst. destruct Hw as [<-|Hw].
    + exists t. split; [now left | exact Et].
    + destruct (IH _ eq_refl _ Hw) as (t' & ? & ?).
      exists t'. split; [now right | assumption].
Qed.

Lemma split_from_pieces (cur s t : str) :
  In t (split_from cur s) -> t <> [].
Proof.
  revert cur. induction s as [|c s IH]; intros cur; cbn [split_from].
  - destruct cur; [easy|]. intros [<-|[]]. easy.
  - destruct (isspace c).
    + destruct cur; [apply IH|]. intros [<-|H]; [easy | now apply IH in H].
    + apply IH.
Qed.

(** The loop only appends to the symbols it has. *)
Lemma full_loop_appends (f : nat) (text : str) (acc l : list SolfegeSymbol) :
  Word.full_loop f text acc = Some (Ok l) -> exists l', l = acc ++ l'.
Proof.
  revert text acc. induction f as [|f IH]; intros text acc.
  - destruct text; [|discriminate]. intros H; inversion H.
    exists []. now rewrite app_nil_r.
  - destruct text as [|c t].
    + intros H; inversion H. exists []. now rewrite app_nil_r.
    + cbn [Word.full_loop]. unfold Word.full_step.
      destruct (Word.sol_token (c :: t)).
      * intros (l' & ->)%IH. exists ([SOL] ++ l'). now rewrite app_assoc.
      * destruct (Symbol.of_name _) as [x|]; cbn [bind]; [|discriminate].
        intros (l' & ->)%IH. exists ([x] ++ l'). now rewrite app_assoc.
Qed.

Lemma of_full_not_empty (t : str) (w : SolresolWord) :
  t <> [] -> Word.of_full t = Some (Ok w) -> word w <> [].
Proof.
  intros Ht. unfold Word.of_full.
  destruct (Word.full_loop (length t) t []) as [[l|e]|] eqn:E; try discriminate.
  intros H; inversion H; subst w; clear H. cbn [word].
  destruct t as [|c t]; [easy|]. cbn [length Word.full_loop] in E.
  unfold Word.full_step in E.
  destruct (Word.sol_token (c :: t)).
  - apply full_loop_appends in E as (l' & ->). discriminate.
  - destruct (Symbol.of_name _) as [x|]; cbn [bind] in E; [|discriminate].
    apply full_loop_appends in E as (l' & ->). discriminate.
Qed.

Lemma replace_not_empty (old new s : str) :
  new <> [] -> s <> [] -> replace old new s <> [].
Proof.
  intros Hn Hs. destruct s as [|c s]; [easy|]. unfold replace.
  cbn [replace_from]. destruct (startswith old (c :: s)); [|easy].
  destruct new; [easy | discriminate].
Qed.

Lemma of_ses_not_empty (t : str) (w : SolresolWord) :
  t <> [] -> Word.of_ses t = Ok w -> word w <> [].
Proof.
  intros Ht. unfold Word.of_ses. intros (l & El & H)%bind_Ok_inv.
  inversion H; subst w. cbn [word]. apply mapM_length in El.
  pose proof (replace_not_empty (lit "au") (lit "t")
                (replace (lit "ai") (lit "l") t)) as Hr.
  intros ->. apply Hr; [easy | now apply replace_not_empty |].
  now apply length_zero_iff_nil.
Qed.

End TextFacts.

(** X25. Phrase full-text round trip: for every phrase whose words all
    have at least one symbol, of any length, building a phrase from the
    full text of the phrase in full syntax gives the phrase back. *)
Theorem phrase_fulltext_roundtrip (p : Solresol) :
  (forall w, In w (words p) -> word w <> []) ->
  Phrase.of_text (Phrase.fulltext p) SynFull = Some (Ok p).
Proof.
  intros Hw. unfold Phrase.of_text, Phrase.fulltext.
  rewrite TextFacts.text_tokens.
  - rewrite TextFacts.map_words_Ok; [now destruct p|].
    intros w _. apply PackFacts.fulltext_decodes.
  - intros t (w & <- & Hin)%in_map_iff. split.
    + now apply TextFacts.fulltext_not_empty, Hw.
    + apply TextFacts.fulltext_letters.
Qed.

Lemma phrase_fulltext_roundtrip_witness :
  (forall w, In w (words six_symbols_right) -> word w <> [])
  /\ Phrase.of_text (Phrase.fulltext six_symbols_right) SynFull
     = Some (Ok six_symbols_right).
Proof.
  assert (forall w, In w (words six_symbols_right) -> word w <> []) as H.
  { intros w [<-|[<-|[]]]; discriminate. }
  split; [exact H | apply (phrase_fulltext_roundtrip six_symbols_right H)].
Defined.

(** X26. Phrase ses round trip: for every phrase whose words all have at
    least one symbol, building a phrase from the ses form of the phrase in
    ses syntax gives the phrase back. *)
Theorem phrase_ses_roundtrip (p : Solresol) :
  (forall w, In w (words p) -> word w <> []) ->
  Phrase.of_text (Phrase.ses p) SynSes = Some (Ok p).
Proof.
  intros Hw. unfold Phrase.of_text, Phrase.ses.
  rewrite TextFacts.text_tokens.
  - rewrite TextFacts.map_words_Ok; [now destruct p|].
    intros w _. cbn [Word.of_str]. now rewrite PackFacts.ses_decodes_word.
  - intros t (w & <- & Hin)%in_map_iff. split.
    + now apply TextFacts.ses_not_empty, Hw.
    + apply TextFacts.ses_letters.
Qed.

Lemma phrase_ses_roundtrip_witness :
  (forall w, In w (words six_symbols_right) -> word w <> [])
  /\ Phrase.of_text (Phrase.ses six_symbols_right) SynSes
     = Some (Ok six_symbols_right).
Proof.
  assert (forall w, In w (words six_symbols_right) -> word w <> []) as H.
  { intros w [<-|[<-|[]]]; discriminate. }
  split; [exact H | apply (phrase_ses_roundtrip six_symbols_right H)].
Defined.

(** X27. The text constructor does not see punctuation: a punctuation
    character anywhere in the text changes nothing, in any syntax; inside
    a word it does not separate the two halves. *)
Theorem phrase_of_text_punctuation (a b : str) (c : ascii) (syntax : Syntax) :
  In c Phrase.punctuation ->
  Phrase.of_text (a ++ c :: b) syntax = Phrase.of_text (a ++ b) syntax.
Proof.
  intros Hc. unfold Phrase.of_text, Py.delete_chars.
  rewrite !filter_app. cbn [filter].
  assert (Py.mem_char c Phrase.punctuation = true) as ->; [|reflexivity].
  apply existsb_exists. exists c. split; [exact Hc | apply Ascii.eqb_refl].
Qed.

Lemma phrase_of_text_punctuation_witness :
  In "-"%char Phrase.punctuation
  /\ Phrase.of_text (Py.lit "do" ++ "-"%char :: Py.lit "re mi") SynFull
     = Phrase.of_text (Py.lit "do" ++ Py.lit "re mi") SynFull.
Proof.
  assert (In "-"%char Phrase.punctuation) as H.
  { unfold Phrase.punctuation. simpl. do 12 right. left. reflexivity. }
  split; [exact H|].
  apply (phrase_of_text_punctuation (Py.lit "do") (Py.lit "re mi") "-" SynFull H).
Defined.

(** X28. A phrase built from text in full or in ses syntax has no word
    without symbols. *)
Theorem phrase_of_text_words_not_empty (text : str) (syntax : Syntax)
        (p : Solresol) :
  syntax <> SynNum ->
  Phrase.of_text text syntax = Some (Ok p) ->
  forall w, In w (words p) -> word w <> [].
Proof.
  intros Hs. unfold Phrase.of_text.
  destruct (Phrase.map_words _ _) as [[ws|e]|] eqn:E; try discriminate.
  intros H w Hw. inversion H; subst p; clear H. cbn [words] in Hw.
  destruct (TextFacts.map_words_In _ _ _ E w Hw) as (t & Ht & Ew).
  apply TextFacts.split_from_pieces in Ht.
  destruct syntax; cbn [Word.of_str] in Ew.
  - inversion Ew as [Ew']. now apply (TextFacts.of_ses_not_empty t).
  - now elim Hs.
  - now apply (TextFacts.of_full_not_empty t).
Qed.

Lemma phrase_of_text_words_not_empty_witness :
  SynFull <> SynNum
  /\ Phrase.of_text (Py.lit " dore,  sol ") SynFull
     = Some (Ok (MkPhrase [MkWord [DO; RE]; MkWord [SOL]]))
  /\ forall w, In w (words (MkPhrase [MkWord [DO; RE]; MkWord [SOL]])) ->
               word w <> [].
Proof.
  split; [discriminate|]. split; [reflexivity|].
  apply (phrase_of_text_words_not_empty (Py.lit " dore,  sol ") SynFull);
    [discriminate | reflexivity].
Defined.
